(** * memory-cache: a shallow embedding of [index.js] and its verified properties

    The class [MemoryCache] of [index.js] keeps one JavaScript object, [this.$],
    that maps a key to an item record.  The embedding below follows the source
    method by method:

    - JavaScript values that reach the code through arguments are the
      inductive [value]; numbers are the whole numbers among the doubles,
      carried as [Z];
    - strings are [string], read as sequences of code units below 256;
    - the store [this.$] is embedded twice.  The module [MemoryCache] has it
      as the finite map [gmap string item] of its own properties, and adds
      in [Z]: this is the whole of a store that the constructor or [clear()]
      made with [Object.create(null)], with clock values and durations
      whose sums are safe integers.  The module [WithPrototype] has it as
      an [object], own properties and prototype, for the stores that
      [import] or [opts.state] install, and rounds a sum to the nearest
      double; it embeds the methods that reach a property by a name of the
      caller: [set], [get], [getMeta] and [delete].  The two agree on a
      store without a prototype ([get_bare], [set_bare], [delete_bare]);
    - a store holds items: its objects are ordinary and extensible, and
      their prototype is [null], [Object.prototype] or an item;
    - the objects that [getTagged] and [export({persistent: true})] build
      start as the literal [{}]: an entry under the name [__proto__] does
      not become a property of theirs ([literal_put]);
    - every method of [MemoryCache] runs in the monad [M]: it reads the
      clock ([Date.now], as mocked by the test-suite through [_timeNow]),
      threads the store and may throw;
    - the order in which [Object.keys] enumerates the store is not modelled:
      every modelled result is a count or a map;
    - the optional logger receives text only and never touches the store or a
      result, so the calls to [this.log] are left out;
    - the constructor, the timer methods ([gcStart], [gcStop], [gcStatus]),
      [spawn] and [dispose] are embedded on a record of the instance's
      fields and a table of the runtime's interval timers, with the delay
      that Node.js gives a timer;
    - [tags()] is not embedded: it counts in an object literal, whose
      lookups also see the properties of [Object.prototype]; [import(null)],
      which installs [null] as the store, is not embedded either. *)

From Stdlib Require Import ZArith Ascii String.
From stdpp Require Import base option list gmap strings fin_maps.

Local Open Scope string_scope.
Local Open Scope Z_scope.

(** ** JavaScript values *)

Inductive value : Type :=
| VUndefined
| VNull
| VBool (b : bool)
| VNum (n : Z)
| VStr (s : string)
| VArr (a : list string).

(** ToBoolean. *)
Definition truthy (v : value) : bool :=
  match v with
  | VUndefined | VNull => false
  | VBool b => b
  | VNum n => negb (n =? 0)
  | VStr s => negb (String.eqb s "")
  | VArr _ => true
  end.

(** A numeric option ([opts.expireIn], [opts.expireAt], [opts.maxAge]):
    [None] is a property that is absent. *)
Definition truthy_num (o : option Z) : bool :=
  match o with
  | Some n => negb (n =? 0)
  | None => false
  end.

(** ** Results: a returned value or a thrown error *)

Inductive res (A : Type) : Type :=
| Ok (a : A)
| Throw (msg : string).

Arguments Ok {A} a.
Arguments Throw {A} msg.

(** ** String helpers used by [_paramArray] *)

(** The code units below 256 matched by [\s] (and removed by [trim]):
    TAB, LF, VT, FF, CR, SPACE and NBSP. *)
Definition is_space (c : ascii) : bool :=
  let n := nat_of_ascii c in
  ((9 <=? n)%nat && (n <=? 13)%nat) || (n =? 32)%nat || (n =? 160)%nat.

(** [s.replace(/\s+/g, ' ')]: every maximal run of white space becomes one
    space.  [in_run] tells that the previous unit belonged to a run. *)
Fixpoint replace_spaces (in_run : bool) (s : string) : string :=
  match s with
  | EmptyString => EmptyString
  | String c s' =>
      if is_space c
      then (if in_run then replace_spaces true s'
            else String " " (replace_spaces true s'))
      else String c (replace_spaces false s')
  end.

Fixpoint trimStart (s : string) : string :=
  match s with
  | EmptyString => EmptyString
  | String c s' => if is_space c then trimStart s' else s
  end.

Fixpoint trimEnd (s : string) : string :=
  match s with
  | EmptyString => EmptyString
  | String c s' =>
      match trimEnd s' with
      | EmptyString => if is_space c then EmptyString else String c EmptyString
      | r => String c r
      end
  end.

Definition trim (s : string) : string := trimEnd (trimStart s).

(** [s.split(' ')]: the first token and the tokens after it. *)
Fixpoint split_tokens (s : string) : string * list string :=
  match s with
  | EmptyString => (EmptyString, [])
  | String c s' =>
      let '(tok, rest) := split_tokens s' in
      if Ascii.eqb c " "%char then (EmptyString, tok :: rest)
      else (String c tok, rest)
  end.

Definition split_space (s : string) : list string :=
  let '(tok, rest) := split_tokens s in tok :: rest.

(** ** Items and the store *)

(** [item.expires] is [false] or a number in the items that [set] writes;
    the property is absent ([undefined]) in some items of the state that the
    test-suite imports. *)
Inductive expiry : Type :=
| ExpFalse
| ExpAt (t : Z)
| ExpUndefined.

(** ToBoolean of [item.expires]. *)
Definition expiry_truthy (e : expiry) : bool :=
  match e with
  | ExpFalse | ExpUndefined => false
  | ExpAt t => negb (t =? 0)
  end.

(** The object literal built by [set]; [tags] is [false] ([None]) or an
    array. *)
Record item : Type := Item {
  key : string;
  payload : value;
  tags : option (list string);
  expires : expiry;
  created : Z
}.

Abbreviation store := (gmap string item).

(** ** The monad of the methods: clock, store, exceptions *)

Definition M (A : Type) : Type := Z -> store -> res (A * store).

Definition ret {A} (a : A) : M A := fun _ s => Ok (a, s).

Definition bind {A B} (m : M A) (k : A -> M B) : M B :=
  fun now s =>
    match m now s with
    | Ok (a, s') => k a now s'
    | Throw e => Throw e
    end.

Definition throw {A} (msg : string) : M A := fun _ _ => Throw msg.

Definition lift {A} (r : res A) : M A :=
  fun _ s => match r with Ok a => Ok (a, s) | Throw e => Throw e end.

Notation "'let*' x ':=' m 'in' k" := (bind m (fun x => k))
  (at level 10, x name, m at level 100, k at level 200).

(** [this.$[key]] *)
Definition prop (k : string) : M (option item) := fun _ s => Ok (s !! k, s).
(** [this.$[key] = it] *)
Definition assign (k : string) (it : item) : M unit :=
  fun _ s => Ok (tt, <[k := it]> s).
(** [delete this.$[key]] *)
Definition delete_prop (k : string) : M unit :=
  fun _ s => Ok (tt, delete k s).
(** [this.$ = o] *)
Definition replace_store (o : store) : M unit := fun _ _ => Ok (tt, o).
(** [this.$] *)
Definition this_store : M store := fun _ s => Ok (s, s).
(** [Object.keys(this.$)] *)
Definition Object_keys : M (list string) :=
  fun _ s => Ok ((map_to_list s).*1, s).

(** [for (const x of l) body], with the local variables of the loop in
    [acc]; [continue] is a body that returns [acc] as it got it. *)
Fixpoint for_of {A B} (l : list A) (body : A -> B -> M B) (acc : B) : M B :=
  match l with
  | [] => ret acc
  | x :: l' => let* acc' := body x acc in for_of l' body acc'
  end.

Definition TypeError : string := "TypeError".

(** [o[k] = x] on an object [o] that started as the literal [{}], as far as
    the own properties of [o] go.  Such an object inherits from
    [Object.prototype]: under the name [__proto__] the assignment runs the
    inherited setter and adds no own property (it makes [x] the prototype of
    [o] when [x] is an object or null; the prototype of a result is not
    modelled).  Under every other name it adds or overwrites an own
    property. *)
Definition literal_put {V : Type} (k : string) (x : V) (o : gmap string V)
  : gmap string V :=
  if String.eqb k "__proto__" then o else <[k := x]> o.

(** ** Option objects *)

Module SetOpts.
Record t : Type := Make {
  expireIn : option Z;
  expireAt : option Z;
  tags : value
}.
(** [{}] *)
Definition empty : t := Make None None VUndefined.
End SetOpts.

Module GetOpts.
Record t : Type := Make {
  default : value;
  maxAge : option Z;
  force : bool
}.
(** [{}] *)
Definition empty : t := Make VUndefined None false.
End GetOpts.

Module TagOpts.
Record t : Type := Make {
  all : bool;
  meta : bool
}.
(** [{}] *)
Definition empty : t := Make false false.
End TagOpts.

Module ExportOpts.
Record t : Type := Make {
  persistent : bool;
  expired : bool;
  object : bool
}.
(** [{}] *)
Definition empty : t := Make false false false.
End ExportOpts.

Module CacheOpts.
Record t : Type := Make {
  state : option store;
  gc : option Z
}.
(** [{}] *)
Definition empty : t := Make None None.
End CacheOpts.

(** What [getTagged] stores under a matched key: the payload, or the item
    itself when [opts.meta] is set. *)
Inductive entry : Type :=
| EPayload (v : value)
| EMeta (it : item).

(** What [export] returns. *)
Inductive exported : Type :=
| ExportedJSON (txt : string)
| ExportedObject (o : store).

(** What [import] receives: a string, an object (taken to have the shape
    of a store), or a value whose [typeof] is neither (a number, a boolean,
    [undefined]). *)
Inductive import_arg : Type :=
| ImportString (txt : string)
| ImportObject (o : store)
| ImportOther.

(** ** The class [MemoryCache] *)

Module MemoryCache.

(** *** Helpers *)

(** [_timeNow()]: the current unix time. *)
Definition _timeNow : M Z := fun now s => Ok (now, s).

Definition _paramArray (input : value) : res (list string) :=
  match input with
  | VStr s => Ok (split_space (trim (replace_spaces false s)))
  | VArr a => Ok a
  | _ => Throw "[memory-cache] invalid input, must be string or an array"
  end.

Definition _defaultOrNull (opts : GetOpts.t) : value :=
  match GetOpts.default opts with
  | VUndefined => VNull
  | d => d
  end.

(** [arr.includes(x)] *)
Definition includes (arr : list string) (x : string) : bool :=
  bool_decide (x ∈ arr).

(** [item.tags.includes(tag)]; [false] has no method [includes]. *)
Definition item_tags_includes (it : item) (tag : string) : res bool :=
  match tags it with
  | Some arr => Ok (includes arr tag)
  | None => Throw TypeError
  end.

Fixpoint _itemHasAllTags (it : item) (tags : list string) : res bool :=
  match tags with
  | [] => Ok true
  | tag :: rest =>
      match item_tags_includes it tag with
      | Ok b => if negb b then Ok false else _itemHasAllTags it rest
      | Throw e => Throw e
      end
  end.

Fixpoint _itemHasAnyTag (it : item) (tags : list string) : res bool :=
  match tags with
  | [] => Ok false
  | tag :: rest =>
      match item_tags_includes it tag with
      | Ok b => if b then Ok true else _itemHasAnyTag it rest
      | Throw e => Throw e
      end
  end.

(** *** Setters, getters and deleters *)

(** [opts.expireAt || false] *)
Definition expireAt_or_false (opts : SetOpts.t) : expiry :=
  match SetOpts.expireAt opts with
  | Some t => if negb (t =? 0) then ExpAt t else ExpFalse
  | None => ExpFalse
  end.

Definition set (key : string) (payload : value) (opts : SetOpts.t) : M bool :=
  let* now := _timeNow in
  let* tags :=
    (if truthy (SetOpts.tags opts)
     then let* arr := lift (_paramArray (SetOpts.tags opts)) in ret (Some arr)
     else ret None) in
  let expires :=
    match SetOpts.expireIn opts with
    | Some d => if negb (d =? 0) then ExpAt (now + d) else expireAt_or_false opts
    | None => expireAt_or_false opts
    end in
  let* _ := assign key (Item key payload tags expires now) in
  ret true.

(** The tail of [get], once neither [force] nor [maxAge] applied. *)
Definition standard_expires (it : item) (opts : GetOpts.t) (now : Z) : value :=
  match expires it with
  | ExpFalse => payload it
  | ExpAt t =>
      if negb (t =? 0) && (t >? now) then payload it
      else _defaultOrNull opts
  | ExpUndefined => _defaultOrNull opts
  end.

Definition get (key : string) (opts : GetOpts.t) : M value :=
  let* now := _timeNow in
  let* item := prop key in
  match item with
  | None => ret (_defaultOrNull opts)
  | Some item =>
      if GetOpts.force opts then ret (payload item)
      else
        match GetOpts.maxAge opts with
        | Some maxAge =>
            if negb (maxAge =? 0)
            then (if maxAge >? now - created item then ret (payload item)
                  else ret (_defaultOrNull opts))
            else ret (standard_expires item opts now)
        | None => ret (standard_expires item opts now)
        end
  end.

(** [this.$[key] || null]; [None] is [null]. *)
Definition getMeta (key : string) : M (option item) := prop key.

Definition delete (keys : value) : M Z :=
  let* keys := lift (_paramArray keys) in
  for_of keys (fun key count =>
    let* it := prop key in
    match it with
    | None => ret count
    | Some _ => let* _ := delete_prop key in ret (count + 1)
    end) 0.

Definition clear : M unit := replace_store ∅.

(** *** Garbage collection *)

(** [cached.expires && now > cached.expires] *)
Definition sweepable (now : Z) (cached : item) : bool :=
  match expires cached with
  | ExpFalse | ExpUndefined => false
  | ExpAt t => negb (t =? 0) && (now >? t)
  end.

(** [this.keys()] is called without argument: it is [Object.keys(this.$)]. *)
Definition deleteExpired : M Z :=
  let* now := _timeNow in
  let* ks := Object_keys in
  for_of ks (fun key expired =>
    let* cached := prop key in
    match cached with
    | None => throw TypeError
    | Some cached =>
        if sweepable now cached
        then let* _ := delete_prop key in ret (expired + 1)
        else ret expired
    end) 0.

(** *** Aux *)

Definition keys (validOnly : bool) : M (list string) :=
  let* _ := (if validOnly then deleteExpired else ret 0) in
  Object_keys.

(** [this.keys().length] *)
Definition count (validOnly : bool) : M Z :=
  let* _ := (if validOnly then deleteExpired else ret 0) in
  let* ks := keys false in
  ret (Z.of_nat (length ks)).

(** *** Tags *)

(** [!item.tags] *)
Definition untagged (it : item) : bool :=
  match tags it with
  | None => true
  | Some _ => false
  end.

(** The test that the loops of [getTagged] and [_deleteItemsTagged] both
    run on an item: [false] is one of the three [continue], [true] is
    "still here, so a match". *)
Definition tag_match (it : item) (tags : list string) (all : bool)
  : res bool :=
  if untagged it then Ok false
  else if all then _itemHasAllTags it tags
  else _itemHasAnyTag it tags.

Definition getTagged (tags : value) (opts : TagOpts.t)
  : M (gmap string entry) :=
  let* tags := lift (_paramArray tags) in
  let* ks := keys false in
  for_of ks (fun key (items : gmap string entry) =>
    let* item := prop key in
    match item with
    | None => throw TypeError
    | Some item =>
        let* hit := lift (tag_match item tags (TagOpts.all opts)) in
        if negb hit then ret items
        else if TagOpts.meta opts then ret (literal_put key (EMeta item) items)
        else ret (literal_put key (EPayload (payload item)) items)
    end) ∅.

Definition _deleteItemsTagged (tags : value) (allTags : bool)
  : M (list string * Z) :=
  let* tags := lift (_paramArray tags) in
  let* ks := keys false in
  let* removed :=
    for_of ks (fun key removed =>
      let* item := prop key in
      match item with
      | None => throw TypeError
      | Some item =>
          let* hit := lift (tag_match item tags allTags) in
          if negb hit then ret removed
          else let* _ := delete_prop key in ret (removed + 1)
      end) 0 in
  ret (tags, removed).

Definition deleteTagged (tags : value) (opts : TagOpts.t) : M Z :=
  let* r := _deleteItemsTagged tags (TagOpts.all opts) in
  ret (snd r).

(** *** Events *)

Definition trigger (tags : value) (opts : TagOpts.t) : M Z :=
  let* r := _deleteItemsTagged tags (TagOpts.all opts) in
  ret (snd r).

(** *** Export and import *)

Section JSON.

(** [JSON.stringify] and [JSON.parse] belong to the language, not to the
    repository: the two methods take them as parameters.  The [for...in] of
    the persistent branch walks the own keys of the store, which are all
    its enumerable properties unless an item is its prototype. *)
Variable JSON_stringify : store -> res string.
Variable JSON_parse : string -> res store.

Definition export (opts : ExportOpts.t) : M exported :=
  let* toExport :=
    (if ExportOpts.persistent opts then
       let* ks := Object_keys in
       for_of ks (fun key (toExport : store) =>
         let* it := prop key in
         match it with
         | None => throw TypeError
         | Some it =>
             if negb (expiry_truthy (expires it))
             then ret (literal_put key it toExport)
             else ret toExport
         end) ∅
     else if ExportOpts.expired opts then this_store
     else let* _ := deleteExpired in this_store) in
  let* txt := lift (JSON_stringify toExport) in
  if ExportOpts.object opts
  then let* o := lift (JSON_parse txt) in ret (ExportedObject o)
  else ret (ExportedJSON txt).

Definition import (obj : import_arg) : M bool :=
  match obj with
  | ImportString txt =>
      let* o := lift (JSON_parse txt) in
      let* _ := replace_store o in
      ret true
  | ImportObject o =>
      let* _ := replace_store o in
      ret true
  | ImportOther =>
      throw "[memory-cache] invalid import type, only JSON and object are supported"
  end.

End JSON.

(** *** Instances and the garbage-collection timer

    The fields of an instance: [this.config.gc], [this.$] ([None] is [null])
    and [this.gcTimer] ([None] is [null]; a handle of the runtime is
    truthy).  The interval timers belong to the runtime: its table maps each
    live handle to its delay in milliseconds, [setInterval] adds a fresh
    handle and [clearInterval] removes one. *)

Record instance : Type := {
  config_gc : Z;
  dollar : option store;
  gcTimer : option positive
}.

(** The delay that the runtime (Node.js) gives a timer asked for with
    [ms] milliseconds: a delay below 1 or above 2^31 - 1 becomes 1. *)
Definition timer_delay (ms : Z) : Z :=
  if (1 <=? ms) && (ms <=? 2147483647) then ms else 1.

Definition setInterval (period : Z) (T : gmap positive Z)
  : positive * gmap positive Z :=
  let h := fresh (dom T) in (h, <[h := timer_delay period]> T).

Definition clearInterval (h : positive) (T : gmap positive Z)
  : gmap positive Z :=
  base.delete h T.

(** [gc: opts.gc || 600], [this.$ = opts.state || Object.create(null)],
    [this.gcTimer = null]. *)
Definition constructor (opts : CacheOpts.t) : instance :=
  {| config_gc :=
       match CacheOpts.gc opts with
       | Some g => if negb (g =? 0) then g else 600
       | None => 600
       end;
     dollar :=
       match CacheOpts.state opts with
       | Some o => Some o
       | None => Some ∅
       end;
     gcTimer := None |}.

Definition gcStop (c : instance) (T : gmap positive Z)
  : bool * instance * gmap positive Z :=
  match gcTimer c with
  | Some h =>
      (true,
       {| config_gc := config_gc c; dollar := dollar c; gcTimer := None |},
       clearInterval h T)
  | None => (false, c, T)
  end.

Definition gcStart (c : instance) (T : gmap positive Z)
  : instance * gmap positive Z :=
  let '(_, c, T) := gcStop c T in
  let interval := config_gc c in
  let '(h, T) := setInterval (interval * 1000) T in
  ({| config_gc := config_gc c; dollar := dollar c; gcTimer := Some h |}, T).

(** [!!this.gcTimer] *)
Definition gcStatus (c : instance) : bool :=
  match gcTimer c with
  | Some _ => true
  | None => false
  end.

Definition spawn (opts : CacheOpts.t) : instance := constructor opts.

Definition dispose (c : instance) (T : gmap positive Z)
  : instance * gmap positive Z :=
  let c := {| config_gc := config_gc c; dollar := None;
              gcTimer := gcTimer c |} in
  let '(_, c, T) := gcStop c T in
  (c, T).

End MemoryCache.

(** ** Numbers beyond the safe integers

    Numbers are doubles; the embedding carries the whole numbers among them
    as [Z].  A whole number below 2^53 in magnitude is a double; from there
    on the doubles are [2 ^ e] apart, where [e] grows with the magnitude.
    [round_double] takes a whole number to the nearest double, a tie to the
    even significand, as the addition of the language does with the exact
    sum of its operands (the overflow to infinity, beyond 2^1024, is not
    modelled). *)
Definition round_double (z : Z) : Z :=
  let e := Z.log2 (Z.abs z) - 52 in
  if e <=? 0 then z
  else
    let q := Z.abs z / 2 ^ e in
    let r := Z.abs z mod 2 ^ e in
    let half := 2 ^ (e - 1) in
    let q' := if r <? half then q
              else if half <? r then q + 1
              else if Z.even q then q else q + 1 in
    Z.sgn z * (q' * 2 ^ e).

(** [x + y] on numbers. *)
Definition number_add (x y : Z) : Z := round_double (x + y).

(** ** The store as an object with a prototype

    [MemoryCache] above reads and writes the own properties of [this.$].
    That is all there is to a store that the constructor or [clear()] made
    with [Object.create(null)].  A store that [import] or [opts.state]
    installed is a plain object, as [JSON.parse], an object literal and
    [export({object: true})] yield: a read [this.$[key]] also finds what the
    object inherits from [Object.prototype], and a write under the name
    [__proto__] runs the inherited setter, which makes the written item the
    prototype of the store.  The module [WithPrototype] embeds, on such
    objects, the methods that reach a property by a name the caller gives:
    [set], [get], [getMeta] and [delete].  The other embedded methods walk
    [Object.keys(this.$)] and meet own properties only, but for the
    persistent branch of [export]: its [for...in] also meets the fields of
    an item that has become the prototype of the store. *)

Inductive prototype : Type :=
| ProtoNull
| ProtoObject
| ProtoItem (it : item).

Record object : Type := {
  own : store;
  proto : prototype
}.

(** What a read of a property finds: an item, a value of the language, or
    an object of the runtime (a method of [Object.prototype], or
    [Object.prototype] itself), which is truthy and has no property
    [payload], [tags], [expires] or [created]. *)
Inductive member : Type :=
| MItem (it : item)
| MValue (v : value)
| MBuiltin.

Module WithPrototype.

(** The names of the methods of [Object.prototype]. *)
Definition Object_prototype_methods : list string :=
  ["constructor"; "__defineGetter__"; "__defineSetter__"; "hasOwnProperty";
   "__lookupGetter__"; "__lookupSetter__"; "isPrototypeOf";
   "propertyIsEnumerable"; "toString"; "valueOf"; "toLocaleString"].

(** A read that reaches [Object.prototype]: a method, or the accessor
    [__proto__], whose getter returns the prototype [p] of the object that
    is read. *)
Definition Object_prototype_get (p : member) (k : string) : member :=
  if bool_decide (k ∈ Object_prototype_methods) then MBuiltin
  else if String.eqb k "__proto__" then p
  else MValue VUndefined.

(** The own properties of an item: the fields of the literal in [set]. *)
Definition item_get (it : item) (k : string) : option member :=
  if String.eqb k "key" then Some (MValue (VStr (key it)))
  else if String.eqb k "payload" then Some (MValue (payload it))
  else if String.eqb k "tags" then
    Some (MValue match tags it with
                 | Some arr => VArr arr
                 | None => VBool false
                 end)
  else if String.eqb k "expires" then
    match expires it with
    | ExpFalse => Some (MValue (VBool false))
    | ExpAt t => Some (MValue (VNum t))
    | ExpUndefined => None
    end
  else if String.eqb k "created" then Some (MValue (VNum (created it)))
  else None.

(** What the prototype chain holds under a name. *)
Definition inherited (p : prototype) (k : string) : member :=
  match p with
  | ProtoNull => MValue VUndefined
  | ProtoObject => Object_prototype_get MBuiltin k
  | ProtoItem it =>
      match item_get it k with
      | Some m => m
      | None => Object_prototype_get (MItem it) k
      end
  end.

(** [this.$[key]] *)
Definition read (o : object) (k : string) : member :=
  match own o !! k with
  | Some it => MItem it
  | None => inherited (proto o) k
  end.

(** Whether the setter of [__proto__] is inherited. *)
Definition has_setter (p : prototype) : bool :=
  match p with
  | ProtoNull => false
  | ProtoObject | ProtoItem _ => true
  end.

(** [this.$[key] = it]: an own property is overwritten; without one, the
    name [__proto__] reaches the inherited setter when there is one; every
    other name, inherited or not, becomes an own property. *)
Definition write (k : string) (it : item) (o : object) : object :=
  match own o !! k with
  | Some _ => {| own := <[k := it]> (own o); proto := proto o |}
  | None =>
      if String.eqb k "__proto__" && has_setter (proto o)
      then {| own := own o; proto := ProtoItem it |}
      else {| own := <[k := it]> (own o); proto := proto o |}
  end.

(** [delete this.$[key]]: own properties only. *)
Definition remove (k : string) (o : object) : object :=
  {| own := delete k (own o); proto := proto o |}.

(** ToBoolean of what a read found. *)
Definition member_truthy (m : member) : bool :=
  match m with
  | MItem _ | MBuiltin => true
  | MValue v => truthy v
  end.

(** The object literal of [set]. *)
Definition new_item (key : string) (payload : value) (opts : SetOpts.t)
  (now : Z) : res item :=
  match (if truthy (SetOpts.tags opts)
         then match MemoryCache._paramArray (SetOpts.tags opts) with
              | Ok arr => Ok (Some arr)
              | Throw e => Throw e
              end
         else Ok None) with
  | Ok tags =>
      Ok (Item key payload tags
            match SetOpts.expireIn opts with
            | Some d =>
                if negb (d =? 0) then ExpAt (number_add now d)
                else MemoryCache.expireAt_or_false opts
            | None => MemoryCache.expireAt_or_false opts
            end now)
  | Throw e => Throw e
  end.

Definition set (key : string) (payload : value) (opts : SetOpts.t) (now : Z)
  (o : object) : res (bool * object) :=
  match new_item key payload opts now with
  | Ok it => Ok (true, write key it o)
  | Throw e => Throw e
  end.

(** [get]: on an item as in [MemoryCache.get]; [null] has no properties,
    so every branch past [item === undefined] throws on it; on any other
    value [item.payload], [item.created] and [item.expires] are
    [undefined]. *)
Definition get (key : string) (opts : GetOpts.t) (now : Z) (o : object)
  : res (value * object) :=
  match read o key with
  | MValue VUndefined => Ok (MemoryCache._defaultOrNull opts, o)
  | MItem item =>
      if GetOpts.force opts then Ok (payload item, o)
      else
        match GetOpts.maxAge opts with
        | Some maxAge =>
            if negb (maxAge =? 0)
            then (if maxAge >? now - created item then Ok (payload item, o)
                  else Ok (MemoryCache._defaultOrNull opts, o))
            else Ok (MemoryCache.standard_expires item opts now, o)
        | None => Ok (MemoryCache.standard_expires item opts now, o)
        end
  | MValue VNull => Throw TypeError
  | MValue _ | MBuiltin =>
      if GetOpts.force opts then Ok (VUndefined, o)
      else Ok (MemoryCache._defaultOrNull opts, o)
  end.

(** [this.$[key] || null] *)
Definition getMeta (key : string) (o : object) : member :=
  if member_truthy (read o key) then read o key else MValue VNull.

(** The loop of [delete]. *)
Fixpoint delete_loop (keys : list string) (count : Z) (o : object)
  : Z * object :=
  match keys with
  | [] => (count, o)
  | key :: rest =>
      if negb (member_truthy (read o key)) then delete_loop rest count o
      else delete_loop rest (count + 1) (remove key o)
  end.

Definition delete (keys : value) (now : Z) (o : object) : res (Z * object) :=
  match MemoryCache._paramArray keys with
  | Ok keys => Ok (delete_loop keys 0 o)
  | Throw e => Throw e
  end.

End WithPrototype.

(** * Specification-level definitions *)

(** A store made by the constructor or by [clear()]. *)
Definition bare (s : store) : object := {| own := s; proto := ProtoNull |}.

(** A store installed by [import] or [opts.state]. *)
Definition plain (s : store) : object := {| own := s; proto := ProtoObject |}.

(** The name [k] is not found on the prototype chain of [o]. *)
Definition not_inherited (o : object) (k : string) : Prop :=
  WithPrototype.inherited (proto o) k = MValue VUndefined.

(** Whole numbers on which the arithmetic of doubles is exact. *)
Definition safe_integer (z : Z) : Prop := - 2 ^ 53 < z < 2 ^ 53.

(** The outcome [r] of a [delete] on the object [o] removed the own keys
    [ks] that were present, left the other own keys and the prototype alone
    and counted what it removed. *)
Definition removes_keys (r : res (Z * object)) (ks : list string) (o : object)
  : Prop :=
  ∃ n (o' : object),
    r = Ok (n, o')
    ∧ proto o' = proto o
    ∧ (∀ k, k ∈ ks → own o' !! k = None)
    ∧ (∀ k, k ∉ ks → own o' !! k = own o !! k)
    ∧ n = Z.of_nat (size (own o)) - Z.of_nat (size (own o')).

(** The white-space-delimited words of a string, in one pass: [scan s] is
    the word that starts at the head of [s] (empty when [s] is empty or
    starts with white space) and the words after it. *)
Definition cons_word (w : string) (ws : list string) : list string :=
  match w with
  | EmptyString => ws
  | String _ _ => w :: ws
  end.

Fixpoint scan (s : string) : string * list string :=
  match s with
  | EmptyString => (EmptyString, [])
  | String c s' =>
      let '(w, ws) := scan s' in
      if is_space c then (EmptyString, cons_word w ws)
      else (String c w, ws)
  end.

Definition tokens (s : string) : list string :=
  let '(w, ws) := scan s in cons_word w ws.

(** The store without the items on which [p] holds. *)
Definition purge (p : item -> bool) (s : store) : store :=
  filter (λ kv, p kv.2 = false) s.

(** The tag predicates of the specification, on an item's tag array [arr]
    and the query tags [q]. *)
Definition all_match (arr q : list string) : Prop := ∀ t, t ∈ q → t ∈ arr.
Definition any_match (arr q : list string) : Prop := ∃ t, t ∈ q ∧ t ∈ arr.

(** The decision the two tag loops take on an item. *)
Definition matches (q : list string) (all : bool) (it : item) : bool :=
  match tags it with
  | None => false
  | Some arr =>
      if all then forallb (MemoryCache.includes arr) q
      else existsb (MemoryCache.includes arr) q
  end.

(** What [getTagged] puts in its result for a matched item. *)
Definition entry_of (opts : TagOpts.t) (it : item) : entry :=
  if TagOpts.meta opts then EMeta it else EPayload (payload it).

(** The entry that a match of [getTagged] makes for an item, if the item
    matches. *)
Definition tagged_entry (q : list string) (opts : TagOpts.t) (it : item)
  : option entry :=
  if matches q (TagOpts.all opts) it then Some (entry_of opts it) else None.

(** The entry that the result of [getTagged] holds for the item under the
    key [k]: none under the key [__proto__]. *)
Definition returned_entry (q : list string) (opts : TagOpts.t) (k : string)
  (it : item) : option entry :=
  if String.eqb k "__proto__" then None else tagged_entry q opts it.

(** "An explicit timestamp strictly less than the current time". *)
Definition expired_before (now : Z) (it : item) : Prop :=
  ∃ t, expires it = ExpAt t ∧ t < now.

(** The same for a timestamp other than 0, which is what
    [cached.expires && now > cached.expires] tests. *)
Definition expired_nonzero (now : Z) (it : item) : Prop :=
  ∃ t, expires it = ExpAt t ∧ t ≠ 0 ∧ t < now.

(** The values of [opts.tags] on which [set] does not throw: the falsy ones,
    strings and arrays. *)
Definition tags_accepted (v : value) : bool :=
  match v with
  | VStr _ | VArr _ => true
  | _ => negb (truthy v)
  end.

(** A string without white space. *)
Fixpoint no_space (s : string) : bool :=
  match s with
  | EmptyString => true
  | String c s' => negb (is_space c) && no_space s'
  end.



(** The outcome [r] of a [delete] on the store [s] removed the keys [ks]
    that were present, left the other keys alone and counted what it
    removed. *)
Definition deletes_keys (r : res (Z * store)) (ks : list string) (s : store)
  : Prop :=
  ∃ n (s' : store),
    r = Ok (n, s')
    ∧ (∀ k, k ∈ ks → s' !! k = None)
    ∧ (∀ k, k ∉ ks → s' !! k = s !! k)
    ∧ n = Z.of_nat (size s) - Z.of_nat (size s').

(** A store all of whose payloads satisfy [ok]. *)
Definition payloads_ok (ok : value -> Prop) (s : store) : Prop :=
  ∀ k it, s !! k = Some it → ok (payload it).

(** ** A serializer that round-trips

    The properties of [export] and [import] assume of [JSON.stringify] and
    [JSON.parse] only that the second undoes the first.  The pair below meets
    that assumption on every store: the text is the binary numeral of the
    code that [Countable] gives the store. *)

Definition value_to_sum (v : value)
  : unit + (unit + (bool + (Z + (string + list string)))) :=
  match v with
  | VUndefined => inl tt
  | VNull => inr (inl tt)
  | VBool b => inr (inr (inl b))
  | VNum n => inr (inr (inr (inl n)))
  | VStr s => inr (inr (inr (inr (inl s))))
  | VArr a => inr (inr (inr (inr (inr a))))
  end.

Definition sum_to_value
  (x : unit + (unit + (bool + (Z + (string + list string))))) : value :=
  match x with
  | inl _ => VUndefined
  | inr (inl _) => VNull
  | inr (inr (inl b)) => VBool b
  | inr (inr (inr (inl n))) => VNum n
  | inr (inr (inr (inr (inl s)))) => VStr s
  | inr (inr (inr (inr (inr a)))) => VArr a
  end.

#[global] Instance value_eq_dec : EqDecision value.
Proof. solve_decision. Defined.

#[global] Instance value_countable : Countable value.
Proof.
  refine (inj_countable' value_to_sum sum_to_value _). by intros [].
Defined.

Definition expiry_to_sum (e : expiry) : unit + (Z + unit) :=
  match e with
  | ExpFalse => inl tt
  | ExpAt t => inr (inl t)
  | ExpUndefined => inr (inr tt)
  end.

Definition sum_to_expiry (x : unit + (Z + unit)) : expiry :=
  match x with
  | inl _ => ExpFalse
  | inr (inl t) => ExpAt t
  | inr (inr _) => ExpUndefined
  end.

#[global] Instance expiry_eq_dec : EqDecision expiry.
Proof. solve_decision. Defined.

#[global] Instance expiry_countable : Countable expiry.
Proof.
  refine (inj_countable' expiry_to_sum sum_to_expiry _). by intros [].
Defined.

#[global] Instance item_eq_dec : EqDecision item.
Proof. solve_decision. Defined.

#[global] Instance item_countable : Countable item.
Proof.
  refine (inj_countable'
    (λ it, (key it, payload it, tags it, expires it, created it))
    (λ t, let '(k, p, g, e, c) := t in Item k p g e c) _).
  by intros [].
Defined.

Fixpoint pos_to_bits (p : positive) : string :=
  match p with
  | xH => EmptyString
  | xO q => String "0" (pos_to_bits q)
  | xI q => String "1" (pos_to_bits q)
  end.

Fixpoint bits_to_pos (s : string) : positive :=
  match s with
  | EmptyString => xH
  | String c s' =>
      if Ascii.eqb c "1"%char then xI (bits_to_pos s') else xO (bits_to_pos s')
  end.

Definition bits_stringify (o : store) : res string :=
  Ok (pos_to_bits (encode o)).

Definition bits_parse (txt : string) : res store :=
  match decode (bits_to_pos txt) with
  | Some o => Ok o
  | None => Throw "SyntaxError"
  end.

(** ** Concrete states *)

(** The first five items of the state of the test-suite, at its mocked time
    1893456000. *)
Definition testTime : Z := 1893456000.

Definition test_state : store :=
  <["key1" := Item "key1" (VStr "v1") None ExpFalse (testTime - 3600)]>
  (<["key2" := Item "key2" (VStr "v2") (Some ["foo"; "bar"])
                 (ExpAt (testTime + 3600)) (testTime - 3600)]>
  (<["key3" := Item "key3" (VStr "v3") (Some ["bar"])
                 (ExpAt (testTime - 3600)) (testTime - 7200)]>
  (<["key4" := Item "key4" (VStr "v4") (Some ["foo"; "bar"])
                 (ExpAt (testTime + 3600)) (testTime - 3600)]>
  (<["key5" := Item "key5" (VStr "v5") (Some ["moo"])
                 (ExpAt (testTime - 3600)) (testTime - 7200)]>
  (<["key6" := Item "key6" (VStr "v6") (Some ["on.boom"])
                 ExpUndefined testTime]> ∅))))).

(** An item whose [expires] is the timestamp 0, as
    [set('k', 'v', {expireIn: -now})] writes it. *)
Definition epoch_item : item := Item "k" (VStr "v") None (ExpAt 0) 100.
Definition epoch_state : store := {["k" := epoch_item]}.

(** An item under a key with a space in it. *)
Definition spaced_state : store :=
  {["a b" := Item "a b" (VStr "v") None ExpFalse 100]}.

(** ** Shapes of strings *)

(** Every code unit of [s] satisfies [f]. *)
Fixpoint all_chars (f : ascii -> bool) (s : string) : bool :=
  match s with
  | EmptyString => true
  | String c s' => f c && all_chars f s'
  end.

Definition is_blank (c : ascii) : bool := Ascii.eqb c " "%char.

Arguments is_blank : simpl never.

(** White space, if any, is the space character. *)
Definition space_only (c : ascii) : bool := negb (is_space c) || is_blank c.

Definition starts_blank (s : string) : bool :=
  match s with
  | EmptyString => false
  | String c _ => is_blank c
  end.

(** No two space characters in a row. *)
Fixpoint no_double (s : string) : bool :=
  match s with
  | EmptyString => true
  | String c s' => negb (is_blank c && starts_blank s') && no_double s'
  end.

(** The last code unit, if any, is not a space character. *)
Fixpoint no_trailing (s : string) : bool :=
  match s with
  | EmptyString => true
  | String c EmptyString => negb (is_blank c)
  | String _ s' => no_trailing s'
  end.

Definition nonempty (s : string) : bool :=
  match s with
  | EmptyString => false
  | String _ _ => true
  end.

(** ** Sequences of timer operations *)

Inductive gc_op : Type :=
| GcStart
| GcStop
| Dispose.

Definition gc_step (op : gc_op) (st : MemoryCache.instance * gmap positive Z)
  : MemoryCache.instance * gmap positive Z :=
  match op with
  | GcStart => MemoryCache.gcStart st.1 st.2
  | GcStop => let '(_, c, T) := MemoryCache.gcStop st.1 st.2 in (c, T)
  | Dispose => MemoryCache.dispose st.1 st.2
  end.

Definition gc_run (ops : list gc_op)
  (st : MemoryCache.instance * gmap positive Z)
  : MemoryCache.instance * gmap positive Z :=
  foldl (λ st op, gc_step op st) st ops.

(** What the timer operations keep true of an instance and the runtime's
    table, given the table [T0] without the instance's timer: the table is
    [T0], plus the instance's own timer when it has one. *)
Definition gc_inv (T0 : gmap positive Z)
  (st : MemoryCache.instance * gmap positive Z) : Prop :=
  match MemoryCache.gcTimer st.1 with
  | Some h =>
      T0 !! h = None
      ∧ st.2
        = <[h := MemoryCache.timer_delay (MemoryCache.config_gc st.1 * 1000)]>
            T0
  | None => st.2 = T0
  end.

(** ** The persistent items *)

(** The items that [export] holds as own properties of [toExport] under
    [persistent]: those whose [expires] is falsy, but for the key
    [__proto__]. *)
Definition persistent_items (s : store) : store :=
  filter (λ kv, kv.1 ≠ "__proto__" ∧ expiry_truthy (expires kv.2) = false) s.

(** * Verification *)

(** ** The monad *)

Lemma bind_Ok {A B} (m : M A) (k : A -> M B) now s a s' :
  m now s = Ok (a, s') → (let* x := m in k x) now s = k a now s'.
Proof. unfold bind. by intros ->. Qed.

Lemma bind_Throw {A B} (m : M A) (k : A -> M B) now s e :
  m now s = Throw e → (let* x := m in k x) now s = Throw e.
Proof. unfold bind. by intros ->. Qed.

(** ** Loops that delete the keys whose item satisfies a test *)

Section DeleteLoop.

Variable p : item -> bool.
Variable body : string -> Z -> M Z.
Variable now : Z.

Hypothesis body_spec : ∀ k n (s : store) it,
  s !! k = Some it →
  body k n now s = Ok (if p it then (n + 1, delete k s) else (n, s)).

Lemma for_of_delete_aux ks : ∀ n (s : store),
  NoDup ks →
  (∀ k, k ∈ ks → is_Some (s !! k)) →
  ∃ s' : store,
    for_of ks body n now s
      = Ok (n + Z.of_nat (size s) - Z.of_nat (size s'), s')
    ∧ ∀ k, s' !! k =
           if decide (k ∈ ks)
           then s !! k ≫= (λ it, if p it then None else Some it)
           else s !! k.
Proof.
  induction ks as [|k0 ks IH]; intros n s Hnd Hin.
  - exists s. split; [simpl; unfold ret; do 2 f_equal; lia|].
    intros k. case_decide as Hk; [by apply elem_of_nil in Hk|done].
  - apply NoDup_cons in Hnd as [Hk0 Hnd].
    destruct (Hin k0) as [it0 Hit0]; [by left|].
    pose proof (body_spec k0 n s it0 Hit0) as Hb. cbn [for_of].
    destruct (p it0) eqn:Hp; rewrite (bind_Ok _ _ _ _ _ _ Hb).
    + destruct (IH (n + 1) (delete k0 s) Hnd) as (s' & Hrun & Hs').
      { intros k Hk. rewrite lookup_delete_ne; [|by intros ->].
        apply Hin. by right. }
      exists s'. split.
      * rewrite Hrun. do 2 f_equal.
        assert (size s ≠ 0%nat)
          by (apply map_size_ne_0_lookup; eauto).
        rewrite map_size_delete_Some by eauto. lia.
      * intros k. rewrite Hs'. destruct (decide (k = k0)) as [->|Hne].
        -- rewrite decide_False by done. rewrite decide_True by (by left).
           rewrite lookup_delete_eq, Hit0. simpl. by rewrite Hp.
        -- rewrite lookup_delete_ne by done.
           destruct (decide (k ∈ ks));
           [rewrite decide_True by (by right)|rewrite decide_False
              by (intros [?|?]%elem_of_cons; done)];
           done.
    + destruct (IH n s Hnd) as (s' & Hrun & Hs').
      { intros k Hk. apply Hin. by right. }
      exists s'. split; [done|].
      intros k. rewrite Hs'. destruct (decide (k = k0)) as [->|Hne].
      * rewrite decide_False by done. rewrite decide_True by (by left).
        rewrite Hit0. simpl. by rewrite Hp.
      * destruct (decide (k ∈ ks));
           [rewrite decide_True by (by right)|rewrite decide_False
              by (intros [?|?]%elem_of_cons; done)];
           done.
Qed.

(** Over all the keys of the store, the loop computes [purge p] and counts
    what it removed. *)
Lemma for_of_delete_keys (s : store) :
  for_of (map_to_list s).*1 body 0 now s
    = Ok (Z.of_nat (size s) - Z.of_nat (size (purge p s)), purge p s).
Proof.
  destruct (for_of_delete_aux (map_to_list s).*1 0 s) as (s' & Hrun & Hs').
  - apply NoDup_fst_map_to_list.
  - intros k Hk. apply list_elem_of_fmap in Hk as ([k' it] & -> & Hk).
    apply elem_of_map_to_list in Hk. eauto.
  - assert (s' = purge p s) as ->; [|by rewrite Hrun, Z.add_0_l].
    apply map_eq. intros k. rewrite Hs'. unfold purge.
    rewrite map_lookup_filter.
    destruct (s !! k) as [it|] eqn:Hk; simpl.
    + rewrite decide_True.
      * by destruct (p it) eqn:Hp.
      * apply list_elem_of_fmap. exists (k, it). split; [done|].
        by apply elem_of_map_to_list.
    + by case_decide.
Qed.

End DeleteLoop.

(** ** The test-suite, replayed *)

Example paramArray_string :
  MemoryCache._paramArray (VStr " foo   bar  baz") = Ok ["foo"; "bar"; "baz"].
Proof. reflexivity. Qed.

Example paramArray_array :
  MemoryCache._paramArray (VArr ["foobar"]) = Ok ["foobar"].
Proof. reflexivity. Qed.

Example get_invalid_default :
  MemoryCache.get "noSuchKey" (GetOpts.Make (VStr "def") None false)
    testTime test_state = Ok (VStr "def", test_state).
Proof. vm_compute. reflexivity. Qed.

Example get_no_expiry :
  MemoryCache.get "key1" GetOpts.empty testTime test_state
  = Ok (VStr "v1", test_state).
Proof. vm_compute. reflexivity. Qed.

Example get_expired :
  MemoryCache.get "key3" GetOpts.empty testTime test_state
  = Ok (VNull, test_state).
Proof. vm_compute. reflexivity. Qed.

Example get_expired_forced :
  MemoryCache.get "key3" (GetOpts.Make VUndefined None true) testTime test_state
  = Ok (VStr "v3", test_state).
Proof. vm_compute. reflexivity. Qed.

Example get_maxAge_met :
  MemoryCache.get "key1" (GetOpts.Make VUndefined (Some 7200) false)
    testTime test_state = Ok (VStr "v1", test_state).
Proof. vm_compute. reflexivity. Qed.

Example get_maxAge_exceeded :
  MemoryCache.get "key1" (GetOpts.Make (VStr "def") (Some 1800) false)
    testTime test_state = Ok (VStr "def", test_state).
Proof. vm_compute. reflexivity. Qed.

Example set_update_old :
  MemoryCache.set "key4" (VStr "V4") (SetOpts.Make None None (VStr "foo"))
    testTime test_state
  = Ok (true, <["key4" := Item "key4" (VStr "V4") (Some ["foo"]) ExpFalse
                            testTime]> test_state).
Proof. vm_compute. reflexivity. Qed.

Example set_for_expiration :
  MemoryCache.set "key8" (VStr "V8") (SetOpts.Make (Some 1000) None VUndefined)
    testTime test_state
  = Ok (true, <["key8" := Item "key8" (VStr "V8") None
                            (ExpAt (testTime + 1000)) testTime]> test_state).
Proof. vm_compute. reflexivity. Qed.

Example getTagged_any :
  MemoryCache.getTagged (VStr "foo") TagOpts.empty testTime test_state
  = Ok ({["key2" := EPayload (VStr "v2"); "key4" := EPayload (VStr "v4")]},
        test_state).
Proof. vm_compute. reflexivity. Qed.

Example deleteTagged_all_nono :
  MemoryCache.deleteTagged (VStr "foo bar nono") (TagOpts.Make true false)
    testTime test_state = Ok (0, test_state).
Proof. vm_compute. reflexivity. Qed.

Example deleteTagged_all :
  MemoryCache.deleteTagged (VStr "foo bar") (TagOpts.Make true false)
    testTime test_state
  = Ok (2, delete "key2" (delete "key4" test_state)).
Proof. vm_compute. reflexivity. Qed.

Example deleteExpired_test_state :
  MemoryCache.deleteExpired testTime test_state
  = Ok (2, delete "key3" (delete "key5" test_state)).
Proof. vm_compute. reflexivity. Qed.

Example delete_by_key_twice :
  MemoryCache.delete (VStr "key4") testTime test_state
  = Ok (1, delete "key4" test_state)
  ∧ MemoryCache.delete (VStr "key4") testTime (delete "key4" test_state)
    = Ok (0, delete "key4" test_state).
Proof. split; vm_compute; reflexivity. Qed.

(** ** [get] *)

Ltac run_method :=
  unfold bind, ret, lift, throw, prop, assign, delete_prop, replace_store,
    this_store, MemoryCache._timeNow; simpl.

(** What [get] answers on a stored key; the store is returned as it was. *)
Lemma get_stored key opts now (s : store) it :
  s !! key = Some it →
  MemoryCache.get key opts now s
  = Ok (if GetOpts.force opts then payload it
        else match GetOpts.maxAge opts with
             | Some m =>
                 if negb (m =? 0)
                 then (if m >? now - created it then payload it
                       else MemoryCache._defaultOrNull opts)
                 else MemoryCache.standard_expires it opts now
             | None => MemoryCache.standard_expires it opts now
             end, s).
Proof.
  intros Hk. unfold MemoryCache.get. run_method. rewrite Hk.
  destruct (GetOpts.force opts); [done|].
  destruct (GetOpts.maxAge opts) as [m|]; [|done].
  destruct (negb (m =? 0)); [|done].
  by destruct (m >? now - created it).
Qed.

Lemma get_absent key opts now (s : store) :
  s !! key = None →
  MemoryCache.get key opts now s = Ok (MemoryCache._defaultOrNull opts, s).
Proof. intros Hk. unfold MemoryCache.get. run_method. by rewrite Hk. Qed.

Lemma Z_neq_eqb (m : Z) : m ≠ 0 → negb (m =? 0) = true.
Proof. intros Hm. by apply negb_true_iff, Z.eqb_neq. Qed.

(** C1, as amended: when [force] is not set and [maxAge] is supplied and is
    not 0, [get] on a stored key returns the payload if
    [maxAge > now - created] and the default (or null) otherwise, whatever the
    item's [expires] is; the store is left as it was. *)
Theorem get_maxAge_ignores_expires key opts now (s : store) it m :
  s !! key = Some it →
  GetOpts.force opts = false →
  GetOpts.maxAge opts = Some m →
  m ≠ 0 →
  (m > now - created it →
   MemoryCache.get key opts now s = Ok (payload it, s))
  ∧ (¬ m > now - created it →
     MemoryCache.get key opts now s
     = Ok (MemoryCache._defaultOrNull opts, s)).
Proof.
  intros Hk Hforce Hmax Hm.
  rewrite (get_stored _ _ _ _ _ Hk), Hforce, Hmax, Z_neq_eqb by done.
  split; intros Hage.
  - by rewrite (proj2 (Z.gtb_gt _ _)) by lia.
  - destruct (m >? now - created it) eqn:Hgt; [|done].
    apply Z.gtb_gt in Hgt. lia.
Qed.

(** An item whose [expires] lies in the future misses when it is older than
    [maxAge]. *)
Lemma get_maxAge_ignores_expires_witness :
  MemoryCache.get "key2" (GetOpts.Make VUndefined (Some 1800) false)
    testTime test_state = Ok (VNull, test_state).
Proof.
  refine (proj2 (get_maxAge_ignores_expires "key2"
    (GetOpts.Make VUndefined (Some 1800) false) testTime test_state
    (Item "key2" (VStr "v2") (Some ["foo"; "bar"]) (ExpAt (testTime + 3600))
       (testTime - 3600)) 1800 _ _ _ _) _).
  - vm_compute. reflexivity.
  - reflexivity.
  - reflexivity.
  - lia.
  - vm_compute. intros H. discriminate H.
Defined.

(** C1 as stated fails twice.  [maxAge: 0] is supplied and
    [0 > now - created] is false, yet [get] goes on to test [expires] and
    returns the payload; and under [force] the payload is returned although
    [maxAge > now - created] is false. *)
Lemma get_maxAge_zero_counterexample :
  let s : store := {["k" := Item "k" (VStr "v") None ExpFalse 0]} in
  (GetOpts.maxAge (GetOpts.Make VUndefined (Some 0) false) = Some 0
   ∧ ¬ (0 > 100 - 0)
   ∧ MemoryCache.get "k" (GetOpts.Make VUndefined (Some 0) false) 100 s
     = Ok (VStr "v", s))
  ∧ (¬ (10 > 100 - 0)
     ∧ MemoryCache.get "k" (GetOpts.Make VUndefined (Some 10) true) 100 s
       = Ok (VStr "v", s)).
Proof.
  split.
  - split; [done|]. split; [lia|]. vm_compute. reflexivity.
  - split; [lia|]. vm_compute. reflexivity.
Qed.

(** ** [set] *)

(** [opts.expireIn ? now + opts.expireIn : (opts.expireAt || false)] *)
Lemma set_stores key payload opts now :
  tags_accepted (SetOpts.tags opts) = true →
  ∃ tg, ∀ s : store,
    MemoryCache.set key payload opts now s
    = Ok (true,
          <[key := Item key payload tg
                     match SetOpts.expireIn opts with
                     | Some d =>
                         if negb (d =? 0) then ExpAt (now + d)
                         else MemoryCache.expireAt_or_false opts
                     | None => MemoryCache.expireAt_or_false opts
                     end now]> s).
Proof.
  intros Hok. unfold MemoryCache.set. run_method.
  destruct (SetOpts.tags opts) as [| |b|n|str|arr]; simpl in *;
    try discriminate Hok; try (by eexists).
  - destruct b; [discriminate Hok|by eexists].
  - destruct (negb (n =? 0)); [discriminate Hok|by eexists].
  - destruct (negb (String.eqb str "")); by eexists.
Qed.

(** ** [get] leaves the store alone *)

Lemma get_store_unchanged key opts now (s : store) :
  ∃ v, MemoryCache.get key opts now s = Ok (v, s).
Proof.
  destruct (s !! key) as [it|] eqn:Hk.
  - rewrite (get_stored _ _ _ _ _ Hk). by eexists.
  - rewrite get_absent by done. by eexists.
Qed.

(** ** [deleteExpired] *)

Lemma sweepable_spec now it :
  MemoryCache.sweepable now it = true ↔ expired_nonzero now it.
Proof.
  unfold MemoryCache.sweepable, expired_nonzero. split.
  - destruct (expires it) as [|t|]; try discriminate.
    intros [Hz Hgt]%andb_true_iff. exists t.
    apply negb_true_iff, Z.eqb_neq in Hz. apply Z.gtb_gt in Hgt.
    split; [done|]. split; [done|lia].
  - intros (t & -> & Hz & Hlt). apply andb_true_iff. split.
    + by apply Z_neq_eqb.
    + apply Z.gtb_gt. lia.
Qed.

Lemma purge_lookup_Some p (s : store) k it :
  purge p s !! k = Some it ↔ s !! k = Some it ∧ p it = false.
Proof. unfold purge. by rewrite map_lookup_filter_Some. Qed.

Lemma purge_lookup_None p (s : store) k :
  purge p s !! k = None ↔ ∀ it, s !! k = Some it → p it = true.
Proof.
  unfold purge. rewrite map_lookup_filter_None. split.
  - intros [Hk|Hk] it Hit; [congruence|].
    specialize (Hk it Hit). simpl in Hk. by destruct (p it).
  - intros Hk. right. intros it Hit. simpl. rewrite (Hk it Hit). done.
Qed.

Lemma purge_idemp p (s : store) : purge p (purge p s) = purge p s.
Proof.
  apply map_eq. intros k. apply option_eq. intros it.
  rewrite !purge_lookup_Some. tauto.
Qed.

(** [deleteExpired] as a function of the clock and the store. *)
Lemma deleteExpired_spec now (s : store) :
  MemoryCache.deleteExpired now s
  = Ok (Z.of_nat (size s)
        - Z.of_nat (size (purge (MemoryCache.sweepable now) s)),
        purge (MemoryCache.sweepable now) s).
Proof.
  unfold MemoryCache.deleteExpired, bind at 1 2. simpl.
  apply for_of_delete_keys. intros k n s0 it Hk.
  run_method. rewrite Hk. by destruct (MemoryCache.sweepable now it).
Qed.

(** C2, as amended: [deleteExpired] removes exactly the items whose
    [expires] is a timestamp other than 0 and strictly less than the current
    time, leaves every other item as it was, returns the number of items it
    removed, and a second call at the same time removes nothing. *)
Theorem deleteExpired_exact now (s : store) :
  ∃ n (s' : store),
    MemoryCache.deleteExpired now s = Ok (n, s')
    ∧ (∀ k it, s !! k = Some it → expired_nonzero now it → s' !! k = None)
    ∧ (∀ k it, s !! k = Some it → ¬ expired_nonzero now it →
               s' !! k = Some it)
    ∧ (∀ k, s !! k = None → s' !! k = None)
    ∧ n = Z.of_nat (size s) - Z.of_nat (size s')
    ∧ MemoryCache.deleteExpired now s' = Ok (0, s').
Proof.
  eexists _, _. split; [apply deleteExpired_spec|].
  split; [|split; [|split; [|split]]].
  - intros k it Hk Hexp. apply purge_lookup_None. intros it' Hit'.
    apply sweepable_spec. congruence.
  - intros k it Hk Hexp. apply purge_lookup_Some. split; [done|].
    destruct (MemoryCache.sweepable now it) eqn:Hsw; [|done].
    by apply sweepable_spec in Hsw.
  - intros k Hk. apply purge_lookup_None. intros it Hit. congruence.
  - done.
  - rewrite deleteExpired_spec, purge_idemp. do 2 f_equal. lia.
Qed.

(** C2 as stated fails: 0 is an explicit timestamp strictly less than the
    current time 100, and the item is not removed. *)
Lemma deleteExpired_epoch_counterexample :
  epoch_state !! "k" = Some epoch_item
  ∧ expired_before 100 epoch_item
  ∧ MemoryCache.deleteExpired 100 epoch_state = Ok (0, epoch_state).
Proof.
  split; [vm_compute; reflexivity|]. split.
  - exists 0. split; [reflexivity|lia].
  - vm_compute. reflexivity.
Qed.

(** C10: when an item's [expires] equals the current time, a [get] without
    [force] and without a truthy [maxAge] misses and returns the default (or
    null), while [deleteExpired] at that same time keeps the item and does
    not count it. *)
Theorem boundary_get_misses_sweep_keeps k opts now (s : store) it :
  s !! k = Some it →
  expires it = ExpAt now →
  GetOpts.force opts = false →
  truthy_num (GetOpts.maxAge opts) = false →
  MemoryCache.get k opts now s = Ok (MemoryCache._defaultOrNull opts, s)
  ∧ (∃ n (s' : store),
       MemoryCache.deleteExpired now s = Ok (n, s')
       ∧ s' !! k = Some it
       ∧ n = Z.of_nat (size s) - Z.of_nat (size s'))
  ∧ MemoryCache.deleteExpired now {[k := it]} = Ok (0, {[k := it]}).
Proof.
  intros Hk Hexp Hforce Hmax.
  assert (MemoryCache.sweepable now it = false) as Hsw.
  { unfold MemoryCache.sweepable. rewrite Hexp.
    rewrite Z.gtb_ltb, Z.ltb_irrefl. apply andb_false_r. }
  split; [|split].
  - rewrite (get_stored _ _ _ _ _ Hk), Hforce.
    assert (MemoryCache.standard_expires it opts now
            = MemoryCache._defaultOrNull opts) as Hstd.
    { unfold MemoryCache.standard_expires. rewrite Hexp.
      rewrite Z.gtb_ltb, Z.ltb_irrefl. by rewrite andb_false_r. }
    destruct (GetOpts.maxAge opts) as [m|]; [|by rewrite Hstd].
    simpl in Hmax. by rewrite Hmax, Hstd.
  - eexists _, _. split; [apply deleteExpired_spec|]. split; [|done].
    by apply purge_lookup_Some.
  - rewrite deleteExpired_spec.
    assert (purge (MemoryCache.sweepable now) ({[k := it]} : store)
            = {[k := it]}) as ->.
    { apply map_eq. intros k'. apply option_eq. intros it'.
      rewrite purge_lookup_Some, lookup_singleton_Some.
      split; [tauto|]. intros [<- <-]. done. }
    do 2 f_equal. lia.
Qed.

Lemma boundary_get_misses_sweep_keeps_witness :
  MemoryCache.get "k" GetOpts.empty 100
    ({["k" := Item "k" (VStr "v") None (ExpAt 100) 40]} : store)
  = Ok (VNull, {["k" := Item "k" (VStr "v") None (ExpAt 100) 40]})
  ∧ MemoryCache.deleteExpired 100
      ({["k" := Item "k" (VStr "v") None (ExpAt 100) 40]} : store)
    = Ok (0, {["k" := Item "k" (VStr "v") None (ExpAt 100) 40]}).
Proof.
  destruct (boundary_get_misses_sweep_keeps "k" GetOpts.empty 100
    {["k" := Item "k" (VStr "v") None (ExpAt 100) 40]}
    (Item "k" (VStr "v") None (ExpAt 100) 40)) as (Hget & _ & Hsweep).
  - vm_compute. reflexivity.
  - reflexivity.
  - reflexivity.
  - reflexivity.
  - split; [exact Hget|exact Hsweep].
Defined.

(** ** Loops that collect into an object literal over the keys of the store *)

Section CollectLoop.

Context {V : Type}.
Variable hit : string -> item -> option V.
Variable body : string -> gmap string V -> M (gmap string V).
Variable now : Z.
Variable s : store.

Hypothesis body_spec : ∀ k picked it,
  s !! k = Some it →
  body k picked now s
  = Ok (match hit k it with
        | Some x => <[k := x]> picked
        | None => picked
        end, s).

Lemma for_of_collect_aux ks : ∀ picked,
  (∀ k, k ∈ ks → is_Some (s !! k)) →
  ∃ picked' : gmap string V,
    for_of ks body picked now s = Ok (picked', s)
    ∧ ∀ k, picked' !! k =
           match (if decide (k ∈ ks) then s !! k ≫= hit k else None) with
           | Some x => Some x
           | None => picked !! k
           end.
Proof.
  induction ks as [|k0 ks IH]; intros picked Hin.
  - exists picked. split; [done|]. intros k.
    by rewrite decide_False by apply not_elem_of_nil.
  - destruct (Hin k0) as [it0 Hit0]; [by left|].
    cbn [for_of]. rewrite (bind_Ok _ _ _ _ _ _ (body_spec k0 picked it0 Hit0)).
    destruct (IH (match hit k0 it0 with
                  | Some x => <[k0 := x]> picked
                  | None => picked
                  end)) as (picked' & Hrun & Hpicked').
    { intros k Hk. apply Hin. by right. }
    exists picked'. split; [done|]. intros k. rewrite Hpicked'.
    destruct (decide (k = k0)) as [->|Hne].
    + rewrite (decide_True (P := k0 ∈ k0 :: ks)) by (by left).
      rewrite Hit0. simpl.
      destruct (decide (k0 ∈ ks)); simpl.
      * by destruct (hit k0 it0).
      * destruct (hit k0 it0); [by rewrite lookup_insert_eq|done].
    + destruct (decide (k ∈ ks)) as [Hk|Hk].
      * rewrite (decide_True (P := k ∈ k0 :: ks)) by (by right).
        destruct (s !! k ≫= hit k); [done|].
        destruct (hit k0 it0); [by rewrite lookup_insert_ne|done].
      * rewrite (decide_False (P := k ∈ k0 :: ks))
          by (intros [?|?]%elem_of_cons; done).
        destruct (hit k0 it0); [by rewrite lookup_insert_ne|done].
Qed.

Lemma for_of_collect_keys :
  for_of (map_to_list s).*1 body ∅ now s = Ok (map_imap hit s, s).
Proof.
  destruct (for_of_collect_aux (map_to_list s).*1 ∅) as (r & Hrun & Hr).
  - intros k Hk. apply list_elem_of_fmap in Hk as ([k' it] & -> & Hk).
    apply elem_of_map_to_list in Hk. eauto.
  - assert (r = map_imap hit s) as ->; [|done].
    apply map_eq. intros k. rewrite Hr, map_lookup_imap, lookup_empty.
    destruct (s !! k) as [it|] eqn:Hk; simpl.
    + rewrite decide_True; [by destruct (hit k it)|].
      apply list_elem_of_fmap. exists (k, it). split; [done|].
      by apply elem_of_map_to_list.
    + by case_decide.
Qed.

End CollectLoop.

(** ** Tag matching *)

Lemma includes_spec arr t : MemoryCache.includes arr t = true ↔ t ∈ arr.
Proof. unfold MemoryCache.includes. apply bool_decide_eq_true. Qed.

Lemma _itemHasAllTags_tagged it arr q :
  tags it = Some arr →
  MemoryCache._itemHasAllTags it q = Ok (forallb (MemoryCache.includes arr) q).
Proof.
  intros Htags. induction q as [|t q IH]; [done|]. simpl.
  unfold MemoryCache.item_tags_includes. rewrite Htags.
  by destruct (MemoryCache.includes arr t).
Qed.

Lemma _itemHasAnyTag_tagged it arr q :
  tags it = Some arr →
  MemoryCache._itemHasAnyTag it q = Ok (existsb (MemoryCache.includes arr) q).
Proof.
  intros Htags. induction q as [|t q IH]; [done|]. simpl.
  unfold MemoryCache.item_tags_includes. rewrite Htags.
  by destruct (MemoryCache.includes arr t).
Qed.

Lemma tag_match_spec it q all :
  MemoryCache.tag_match it q all = Ok (matches q all it).
Proof.
  unfold MemoryCache.tag_match, MemoryCache.untagged, matches.
  destruct (tags it) as [arr|] eqn:Htags; [|done].
  destruct all.
  - by apply _itemHasAllTags_tagged.
  - by apply _itemHasAnyTag_tagged.
Qed.

Lemma forallb_includes arr q :
  forallb (MemoryCache.includes arr) q = true ↔ all_match arr q.
Proof.
  unfold all_match. rewrite forallb_forall. split.
  - intros H t Ht. apply includes_spec, H. by apply list_elem_of_In.
  - intros H t Ht. apply includes_spec, H. by apply list_elem_of_In.
Qed.

Lemma existsb_includes arr q :
  existsb (MemoryCache.includes arr) q = true ↔ any_match arr q.
Proof.
  unfold any_match. rewrite existsb_exists. split.
  - intros (t & Ht & Hinc). exists t. split; [by apply list_elem_of_In|].
    by apply includes_spec.
  - intros (t & Ht & Hinc). exists t. split; [by apply list_elem_of_In|].
    by apply includes_spec.
Qed.

Lemma matches_untagged q all it : tags it = None → matches q all it = false.
Proof. unfold matches. by intros ->. Qed.

Lemma matches_tagged q all it arr :
  tags it = Some arr →
  matches q all it = true
  ↔ if all then all_match arr q else any_match arr q.
Proof.
  unfold matches. intros ->. destruct all.
  - apply forallb_includes.
  - apply existsb_includes.
Qed.

(** ** [getTagged], [deleteTagged] and [trigger] as functions of the store *)

Lemma getTagged_spec q opts tags now (s : store) :
  MemoryCache._paramArray q = Ok tags →
  MemoryCache.getTagged q opts now s
  = Ok (map_imap (returned_entry tags opts) s, s).
Proof.
  intros Hq. unfold MemoryCache.getTagged, MemoryCache.keys.
  unfold bind at 1 2 3, lift at 1. rewrite Hq. simpl.
  apply (for_of_collect_keys (returned_entry tags opts)).
  intros k items it Hk.
  run_method. rewrite Hk, tag_match_spec.
  unfold returned_entry, tagged_entry, entry_of, literal_put.
  destruct (matches tags (TagOpts.all opts) it); simpl.
  - by destruct (TagOpts.meta opts), (String.eqb k "__proto__").
  - by destruct (String.eqb k "__proto__").
Qed.

Lemma returned_entries_lookup qs opts (s : store) k :
  map_imap (returned_entry qs opts) s !! k
  = if String.eqb k "__proto__" then None
    else s !! k ≫= tagged_entry qs opts.
Proof.
  rewrite map_lookup_imap. unfold returned_entry.
  destruct (s !! k) as [it|]; simpl; by destruct (String.eqb k "__proto__").
Qed.

Lemma returned_entries_no_proto qs opts (s : store) :
  s !! "__proto__" = None →
  map_imap (returned_entry qs opts) s = omap (tagged_entry qs opts) s.
Proof.
  intros Hfree. apply map_eq. intros k.
  rewrite returned_entries_lookup, lookup_omap.
  destruct (String.eqb k "__proto__") eqn:Hk; [|done].
  apply String.eqb_eq in Hk as ->. by rewrite Hfree.
Qed.

Lemma getTagged_throws q opts e now (s : store) :
  MemoryCache._paramArray q = Throw e →
  MemoryCache.getTagged q opts now s = Throw e.
Proof.
  intros Hq. unfold MemoryCache.getTagged. unfold bind at 1, lift at 1.
  by rewrite Hq.
Qed.

Lemma _deleteItemsTagged_spec q all tags now (s : store) :
  MemoryCache._paramArray q = Ok tags →
  MemoryCache._deleteItemsTagged q all now s
  = Ok ((tags, Z.of_nat (size s) - Z.of_nat (size (purge (matches tags all) s))),
        purge (matches tags all) s).
Proof.
  intros Hq. unfold MemoryCache._deleteItemsTagged, MemoryCache.keys.
  unfold bind at 1 2 3 4, lift at 1. rewrite Hq. simpl.
  rewrite (for_of_delete_keys (matches tags all)); [done|].
  intros k n s0 it Hk. run_method. rewrite Hk, tag_match_spec.
  by destruct (matches tags all it).
Qed.

Lemma _deleteItemsTagged_throws q all e now (s : store) :
  MemoryCache._paramArray q = Throw e →
  MemoryCache._deleteItemsTagged q all now s = Throw e.
Proof.
  intros Hq. unfold MemoryCache._deleteItemsTagged.
  unfold bind at 1, lift at 1. by rewrite Hq.
Qed.

Lemma deleteTagged_spec q opts tags now (s : store) :
  MemoryCache._paramArray q = Ok tags →
  MemoryCache.deleteTagged q opts now s
  = Ok (Z.of_nat (size s)
        - Z.of_nat (size (purge (matches tags (TagOpts.all opts)) s)),
        purge (matches tags (TagOpts.all opts)) s).
Proof.
  intros Hq. unfold MemoryCache.deleteTagged.
  by rewrite (bind_Ok _ _ _ _ _ _ (_deleteItemsTagged_spec _ _ _ _ _ Hq)).
Qed.

Lemma trigger_spec q opts tags now (s : store) :
  MemoryCache._paramArray q = Ok tags →
  MemoryCache.trigger q opts now s
  = Ok (Z.of_nat (size s)
        - Z.of_nat (size (purge (matches tags (TagOpts.all opts)) s)),
        purge (matches tags (TagOpts.all opts)) s).
Proof.
  intros Hq. unfold MemoryCache.trigger.
  by rewrite (bind_Ok _ _ _ _ _ _ (_deleteItemsTagged_spec _ _ _ _ _ Hq)).
Qed.

Lemma deleteTagged_throws q opts e now (s : store) :
  MemoryCache._paramArray q = Throw e →
  MemoryCache.deleteTagged q opts now s = Throw e
  ∧ MemoryCache.trigger q opts now s = Throw e.
Proof.
  intros Hq. unfold MemoryCache.deleteTagged, MemoryCache.trigger.
  by rewrite (bind_Throw _ _ _ _ _ (_deleteItemsTagged_throws _ _ _ _ _ Hq)).
Qed.

(** The three tag operations on every store, query and time: they skip the
    items stored without tags, never look at the clock or at [expires], and
    agree on what matches, but for the key [__proto__], which the result of
    [getTagged] cannot hold. *)
Lemma tag_operations_characterised q opts (s : store) :
  match MemoryCache._paramArray q with
  | Ok qs =>
      ∃ (r : gmap string entry) n (s' : store),
        (∀ now,
           MemoryCache.getTagged q opts now s = Ok (r, s)
           ∧ MemoryCache.deleteTagged q opts now s = Ok (n, s')
           ∧ MemoryCache.trigger q opts now s = Ok (n, s'))
        ∧ n = Z.of_nat (size s) - Z.of_nat (size s')
        ∧ (∀ k it, s' !! k = Some it → s !! k = Some it)
        ∧ (∀ k it, s !! k = Some it → tags it = None →
                   r !! k = None ∧ s' !! k = Some it)
        ∧ (∀ k it arr, s !! k = Some it → tags it = Some arr →
                       (if TagOpts.all opts then all_match arr qs
                        else any_match arr qs) →
                       (k ≠ "__proto__" → r !! k = Some (entry_of opts it))
                       ∧ s' !! k = None)
        ∧ r !! "__proto__" = None
  | Throw e =>
      ∀ now,
        MemoryCache.getTagged q opts now s = Throw e
        ∧ MemoryCache.deleteTagged q opts now s = Throw e
        ∧ MemoryCache.trigger q opts now s = Throw e
  end.
Proof.
  destruct (MemoryCache._paramArray q) as [qs|e] eqn:Hq.
  - eexists _, _, _. split; [|split; [done|split; [|split; [|split]]]].
    + intros now. split; [by apply getTagged_spec|].
      split; [by apply deleteTagged_spec|by apply trigger_spec].
    + intros k it Hk. by apply purge_lookup_Some in Hk as [Hk _].
    + intros k it Hk Htags.
      pose proof (matches_untagged qs (TagOpts.all opts) it Htags) as Hm.
      split.
      * rewrite returned_entries_lookup, Hk. simpl. unfold tagged_entry.
        rewrite Hm. by destruct (String.eqb k "__proto__").
      * by apply purge_lookup_Some.
    + intros k it arr Hk Htags Hmatch.
      apply (matches_tagged qs (TagOpts.all opts) it arr Htags) in Hmatch.
      split.
      * intros Hne. rewrite returned_entries_lookup, Hk.
        rewrite (proj2 (String.eqb_neq _ _) Hne). simpl.
        unfold tagged_entry. by rewrite Hmatch.
      * apply purge_lookup_None. intros it' Hit'. congruence.
    + by rewrite returned_entries_lookup.
  - intros now. split; [by apply getTagged_throws|].
    by apply deleteTagged_throws.
Qed.

(** C5, where the code breaks it: on a fresh cache,
    [set('__proto__', 'v', {tags: 'foo'})] stores an item that matches the
    tag [foo]; [deleteTagged('foo')] removes and counts it, as the claim
    says, but [getTagged('foo')] returns the empty object. *)
Theorem getTagged_drops_proto_key :
  let it := Item "__proto__" (VStr "v") (Some ["foo"]) ExpFalse 100 in
  MemoryCache.set "__proto__" (VStr "v") (SetOpts.Make None None (VStr "foo"))
    100 ∅ = Ok (true, {["__proto__" := it]})
  ∧ MemoryCache.getTagged (VStr "foo") TagOpts.empty 100 {["__proto__" := it]}
    = Ok (∅, {["__proto__" := it]})
  ∧ MemoryCache.deleteTagged (VStr "foo") TagOpts.empty 100
      {["__proto__" := it]} = Ok (1, ∅).
Proof. repeat split; vm_compute; reflexivity. Qed.

(** C6: [deleteTagged(tags, {all: true})] removes a stored item that has a
    tag array iff that array holds every query tag; one query tag missing
    from the array keeps the item; the count returned is the number of items
    removed. *)
Theorem deleteTagged_all_superset q meta now (s : store) :
  match MemoryCache._paramArray q with
  | Ok qs =>
      ∃ n (s' : store),
        MemoryCache.deleteTagged q (TagOpts.Make true meta) now s = Ok (n, s')
        ∧ (∀ k it arr, s !! k = Some it → tags it = Some arr →
                       (s' !! k = None ↔ all_match arr qs))
        ∧ (∀ k it arr t, s !! k = Some it → tags it = Some arr →
                         t ∈ qs → t ∉ arr → s' !! k = Some it)
        ∧ (∀ k it, s' !! k = Some it → s !! k = Some it)
        ∧ n = Z.of_nat (size s) - Z.of_nat (size s')
  | Throw e =>
      MemoryCache.deleteTagged q (TagOpts.Make true meta) now s = Throw e
  end.
Proof.
  destruct (MemoryCache._paramArray q) as [qs|e] eqn:Hq.
  - eexists _, _. split; [by apply deleteTagged_spec|]. simpl.
    split; [|split; [|split; [|done]]].
    + intros k it arr Hk Htags.
      rewrite <- (matches_tagged qs true it arr Htags).
      rewrite purge_lookup_None. split.
      * intros H. by apply H.
      * intros H it' Hit'. congruence.
    + intros k it arr t Hk Htags Ht Hnt. apply purge_lookup_Some.
      split; [done|]. destruct (matches qs true it) eqn:Hm; [|done].
      apply (matches_tagged qs true it arr Htags) in Hm.
      destruct Hnt. by apply Hm.
    + intros k it Hk. by apply purge_lookup_Some in Hk as [Hk _].
  - by apply deleteTagged_throws.
Qed.

(** ** [delete] *)

Section KeyLoop.

Variable body : string -> Z -> M Z.
Variable now : Z.

Hypothesis body_spec : ∀ k n (s : store),
  body k n now s
  = Ok (match s !! k with
        | Some _ => (n + 1, delete k s)
        | None => (n, s)
        end).

Lemma for_of_delete_given ks : ∀ n (s : store),
  ∃ s' : store,
    for_of ks body n now s
    = Ok (n + Z.of_nat (size s) - Z.of_nat (size s'), s')
    ∧ ∀ k, s' !! k = if decide (k ∈ ks) then None else s !! k.
Proof.
  induction ks as [|k0 ks IH]; intros n s.
  - exists s. split; [simpl; unfold ret; do 2 f_equal; lia|].
    intros k. by rewrite decide_False by apply not_elem_of_nil.
  - cbn [for_of]. pose proof (body_spec k0 n s) as Hb.
    destruct (s !! k0) as [it0|] eqn:Hk0; rewrite (bind_Ok _ _ _ _ _ _ Hb).
    + destruct (IH (n + 1) (delete k0 s)) as (s' & Hrun & Hs').
      exists s'. split.
      * rewrite Hrun. do 2 f_equal.
        assert (size s ≠ 0%nat) by (apply map_size_ne_0_lookup; eauto).
        rewrite map_size_delete_Some by eauto. lia.
      * intros k. rewrite Hs'. destruct (decide (k = k0)) as [->|Hne].
        -- rewrite (decide_True (P := k0 ∈ k0 :: ks)) by (by left).
           rewrite lookup_delete_eq. by case_decide.
        -- rewrite lookup_delete_ne by done.
           destruct (decide (k ∈ ks)).
           ++ by rewrite (decide_True (P := k ∈ k0 :: ks)) by (by right).
           ++ by rewrite (decide_False (P := k ∈ k0 :: ks))
                by (intros [?|?]%elem_of_cons; done).
    + destruct (IH n s) as (s' & Hrun & Hs').
      exists s'. split; [done|].
      intros k. rewrite Hs'. destruct (decide (k = k0)) as [->|Hne].
      * rewrite (decide_True (P := k0 ∈ k0 :: ks)) by (by left).
        rewrite Hk0. by case_decide.
      * destruct (decide (k ∈ ks)).
        -- by rewrite (decide_True (P := k ∈ k0 :: ks)) by (by right).
        -- by rewrite (decide_False (P := k ∈ k0 :: ks))
             by (intros [?|?]%elem_of_cons; done).
Qed.

End KeyLoop.

Lemma delete_spec input ks now (s : store) :
  MemoryCache._paramArray input = Ok ks →
  deletes_keys (MemoryCache.delete input now s) ks s.
Proof.
  intros Hin. unfold MemoryCache.delete, deletes_keys.
  unfold bind at 1, lift at 1. rewrite Hin.
  match goal with
  | |- context [for_of ks ?body 0 now s] =>
      destruct (for_of_delete_given body now) with (ks := ks) (n := 0) (s := s)
        as (s' & Hrun & Hs')
  end.
  { intros k n s0. run_method. by destruct (s0 !! k). }
  eexists _, s'. split; [exact Hrun|]. split; [|split; [|lia]].
  - intros k Hk. by rewrite Hs', decide_True.
  - intros k Hk. by rewrite Hs', decide_False.
Qed.

(** *** A string without white space is one token *)

Lemma is_space_space c : is_space c = false → Ascii.eqb c " "%char = false.
Proof.
  intros Hc. destruct (Ascii.eqb c " "%char) eqn:Heq; [|done].
  apply Ascii.eqb_eq in Heq as ->. discriminate Hc.
Qed.

Lemma replace_spaces_no_space str :
  no_space str = true → ∀ b, replace_spaces b str = str.
Proof.
  induction str as [|c str IH]; [done|]. simpl.
  intros [Hc Hstr]%andb_true_iff b. apply negb_true_iff in Hc.
  by rewrite Hc, IH.
Qed.

Lemma trimStart_no_space str : no_space str = true → trimStart str = str.
Proof.
  destruct str as [|c str]; [done|]. simpl.
  intros [Hc _]%andb_true_iff. apply negb_true_iff in Hc. by rewrite Hc.
Qed.

Lemma trimEnd_no_space str : no_space str = true → trimEnd str = str.
Proof.
  induction str as [|c str IH]; [done|]. simpl.
  intros [Hc Hstr]%andb_true_iff. apply negb_true_iff in Hc.
  rewrite IH by done. destruct str; [by rewrite Hc|done].
Qed.

Lemma split_tokens_no_space str :
  no_space str = true → split_tokens str = (str, []).
Proof.
  induction str as [|c str IH]; [done|]. simpl.
  intros [Hc Hstr]%andb_true_iff. apply negb_true_iff in Hc.
  by rewrite IH, is_space_space.
Qed.

Lemma _paramArray_no_space str :
  no_space str = true → MemoryCache._paramArray (VStr str) = Ok [str].
Proof.
  intros Hstr. unfold MemoryCache._paramArray, trim, split_space.
  rewrite replace_spaces_no_space, trimStart_no_space, trimEnd_no_space,
    split_tokens_no_space by done.
  done.
Qed.

(** ** [export] and [import] *)

Lemma bits_to_pos_to_bits p : bits_to_pos (pos_to_bits p) = p.
Proof. induction p as [p IH|p IH|]; simpl; by rewrite ?IH. Qed.

Lemma bits_roundtrip (ok : value -> Prop) (o : store) :
  payloads_ok ok o →
  ∃ txt, bits_stringify o = Ok txt ∧ bits_parse txt = Ok o.
Proof.
  intros _. eexists. split; [reflexivity|]. unfold bits_parse.
  by rewrite bits_to_pos_to_bits, decode_encode.
Qed.

Lemma purge_payloads_ok ok p (s : store) :
  payloads_ok ok s → payloads_ok ok (purge p s).
Proof.
  intros Hs k it Hk. apply purge_lookup_Some in Hk as [Hk _].
  by apply (Hs k).
Qed.

Section RoundTrip.

Variable JSON_stringify : store -> res string.
Variable JSON_parse : string -> res store.

(** The default [export]: sweep, then serialize what is left. *)
Lemma export_default_spec now (s : store) :
  MemoryCache.export JSON_stringify JSON_parse ExportOpts.empty now s
  = match JSON_stringify (purge (MemoryCache.sweepable now) s) with
    | Ok txt => Ok (ExportedJSON txt, purge (MemoryCache.sweepable now) s)
    | Throw e => Throw e
    end.
Proof.
  unfold MemoryCache.export. simpl. unfold bind at 1 2.
  rewrite deleteExpired_spec. run_method.
  by destruct (JSON_stringify _).
Qed.

Lemma import_string_spec txt now (s : store) :
  MemoryCache.import JSON_parse (ImportString txt) now s
  = match JSON_parse txt with
    | Ok o => Ok (true, o)
    | Throw e => Throw e
    end.
Proof. unfold MemoryCache.import. run_method. by destruct (JSON_parse _). Qed.

(** The payloads that serialize, and the assumption made of the
    serializer: on stores of such payloads, parsing undoes printing. *)
Variable serializable : value -> Prop.

Hypothesis JSON_roundtrip : ∀ o : store,
  payloads_ok serializable o →
  ∃ txt, JSON_stringify o = Ok txt ∧ JSON_parse txt = Ok o.

(** C3, as amended: on a store of serializable payloads, [export()]
    followed by [import] of its result (into any instance, at any time)
    yields exactly the items of the store whose [expires] is not a
    timestamp other than 0 that lies strictly before the time of the
    export, each with its key, payload, tags, expires and created as they
    were; every item whose [expires] is such a timestamp is absent. *)
Theorem export_import_roundtrip now (s : store) :
  payloads_ok serializable s →
  ∃ txt (s1 : store),
    MemoryCache.export JSON_stringify JSON_parse ExportOpts.empty now s
    = Ok (ExportedJSON txt, s1)
    ∧ ∀ now' (other : store),
        ∃ s2 : store,
          MemoryCache.import JSON_parse (ImportString txt) now' other
          = Ok (true, s2)
          ∧ (∀ k it, s2 !! k = Some it
                     ↔ s !! k = Some it ∧ ¬ expired_nonzero now it)
          ∧ (∀ k it, s !! k = Some it → expired_nonzero now it →
                     s2 !! k = None).
Proof.
  intros Hs.
  destruct (JSON_roundtrip (purge (MemoryCache.sweepable now) s))
    as (txt & Hprint & Hparse); [by apply purge_payloads_ok|].
  exists txt, (purge (MemoryCache.sweepable now) s).
  split; [by rewrite export_default_spec, Hprint|].
  intros now' other. exists (purge (MemoryCache.sweepable now) s).
  split; [by rewrite import_string_spec, Hparse|]. split.
  - intros k it. rewrite purge_lookup_Some, <- sweepable_spec.
    by rewrite not_true_iff_false.
  - intros k it Hk Hexp. apply purge_lookup_None. intros it' Hit'.
    apply sweepable_spec. congruence.
Qed.

End RoundTrip.

Lemma export_import_roundtrip_witness :
  ∃ txt (s1 : store),
    MemoryCache.export bits_stringify bits_parse ExportOpts.empty
      testTime test_state = Ok (ExportedJSON txt, s1)
    ∧ ∃ s2 : store,
        MemoryCache.import bits_parse (ImportString txt) testTime ∅
        = Ok (true, s2)
        ∧ s2 !! "key2" = test_state !! "key2"
        ∧ s2 !! "key3" = None.
Proof.
  destruct (export_import_roundtrip bits_stringify bits_parse (λ _, True)
    (bits_roundtrip (λ _, True)) testTime test_state)
    as (txt & s1 & Hexport & Himport).
  - intros k it _. exact I.
  - exists txt, s1. split; [exact Hexport|].
    destruct (Himport testTime ∅) as (s2 & Hrun & Hlive & Hgone).
    exists s2. split; [exact Hrun|]. split.
    + apply Hlive. split; [vm_compute; reflexivity|].
      intros (t & Ht & _ & Hlt). vm_compute in Ht.
      injection Ht as <-. vm_compute in Hlt. discriminate Hlt.
    + apply (Hgone "key3" (Item "key3" (VStr "v3") (Some ["bar"])
        (ExpAt (testTime - 3600)) (testTime - 7200))).
      * vm_compute. reflexivity.
      * exists (testTime - 3600). split; [reflexivity|].
        unfold testTime. lia.
Defined.

(** C3 as stated fails: the item of [epoch_state] expired already (its
    timestamp 0 lies before the time 100 of the export), yet it is exported
    and comes back on import. *)
Lemma export_import_epoch_counterexample :
  epoch_state !! "k" = Some epoch_item
  ∧ expired_before 100 epoch_item
  ∧ ∃ txt,
      MemoryCache.export bits_stringify bits_parse ExportOpts.empty
        100 epoch_state = Ok (ExportedJSON txt, epoch_state)
      ∧ MemoryCache.import bits_parse (ImportString txt) 100 ∅
        = Ok (true, epoch_state).
Proof.
  split; [vm_compute; reflexivity|]. split.
  - exists 0. split; [reflexivity|lia].
  - assert (purge (MemoryCache.sweepable 100) epoch_state = epoch_state)
      as Hkept by (vm_compute; reflexivity).
    destruct (bits_roundtrip (λ _, True) epoch_state) as (txt & Hprint & Hparse).
    { intros k it _. exact I. }
    exists txt. split.
    + by rewrite export_default_spec, Hkept, Hprint.
    + by rewrite import_string_spec, Hparse.
Qed.

(** * Further properties *)

(** ** [set] followed by [get] *)

(** A [get] without [force] and without a truthy [maxAge] decides on
    [expires] alone. *)
Lemma get_plain key opts now (s : store) it :
  s !! key = Some it →
  GetOpts.force opts = false →
  truthy_num (GetOpts.maxAge opts) = false →
  MemoryCache.get key opts now s
  = Ok (MemoryCache.standard_expires it opts now, s).
Proof.
  intros Hk Hforce Hmax. rewrite (get_stored _ _ _ _ _ Hk), Hforce.
  destruct (GetOpts.maxAge opts) as [m|]; [|done].
  simpl in Hmax. by rewrite Hmax.
Qed.

(** X1: an item set without a truthy [expireIn] or [expireAt] never
    expires: every later [get] of its key that names no truthy [maxAge]
    returns the payload, at any time. *)
Theorem set_get_never_expires k v opts gopts now now' (s : store) :
  tags_accepted (SetOpts.tags opts) = true →
  truthy_num (SetOpts.expireIn opts) = false →
  truthy_num (SetOpts.expireAt opts) = false →
  truthy_num (GetOpts.maxAge gopts) = false →
  ∃ s1 : store,
    MemoryCache.set k v opts now s = Ok (true, s1)
    ∧ MemoryCache.get k gopts now' s1 = Ok (v, s1).
Proof.
  intros Hok Hin Hat Hmax.
  destruct (set_stores k v opts now Hok) as [tg Hset].
  eexists. split; [apply Hset|].
  rewrite (get_stored k gopts now' _ _ (lookup_insert_eq _ _ _)). simpl.
  assert (MemoryCache.expireAt_or_false opts = ExpFalse) as Hexp.
  { unfold MemoryCache.expireAt_or_false.
    destruct (SetOpts.expireAt opts) as [t|]; [|done].
    simpl in Hat. by rewrite Hat. }
  assert (∀ e, e = ExpFalse →
            MemoryCache.standard_expires (Item k v tg e now) gopts now' = v)
    as Hstd by (by intros e ->).
  destruct (GetOpts.force gopts); [done|].
  assert (match SetOpts.expireIn opts with
          | Some d => if negb (d =? 0) then ExpAt (now + d)
                      else MemoryCache.expireAt_or_false opts
          | None => MemoryCache.expireAt_or_false opts
          end = ExpFalse) as Hfalse.
  { destruct (SetOpts.expireIn opts) as [d|]; [|done].
    simpl in Hin. by rewrite Hin. }
  destruct (GetOpts.maxAge gopts) as [m|].
  - simpl in Hmax. rewrite Hmax. by rewrite Hstd.
  - by rewrite Hstd.
Qed.

Lemma set_get_never_expires_witness :
  ∃ s1 : store,
    MemoryCache.set "key9" (VStr "V9") (SetOpts.Make None None (VStr "moo"))
      testTime test_state = Ok (true, s1)
    ∧ MemoryCache.get "key9" GetOpts.empty (testTime + 86400) s1
      = Ok (VStr "V9", s1).
Proof.
  apply (set_get_never_expires "key9" (VStr "V9")
    (SetOpts.Make None None (VStr "moo")) GetOpts.empty testTime
    (testTime + 86400) test_state); reflexivity.
Defined.

(** X2: an item set with [expireIn] [d] (not 0) at time [now] is returned
    by a plain [get] at time [now'] exactly while [now' < now + d]; from
    [now + d] on the default (or null) is returned.  The timestamp [now + d]
    must not be 0. *)
Theorem set_get_expireIn k v opts gopts now now' d (s : store) :
  tags_accepted (SetOpts.tags opts) = true →
  SetOpts.expireIn opts = Some d → d ≠ 0 → now + d ≠ 0 →
  GetOpts.force gopts = false →
  truthy_num (GetOpts.maxAge gopts) = false →
  ∃ s1 : store,
    MemoryCache.set k v opts now s = Ok (true, s1)
    ∧ MemoryCache.get k gopts now' s1
      = Ok (if now' <? now + d then v
            else MemoryCache._defaultOrNull gopts, s1).
Proof.
  intros Hok Hin Hd Hnz Hforce Hmax.
  destruct (set_stores k v opts now Hok) as [tg Hset].
  eexists. split; [apply Hset|].
  rewrite (get_plain k gopts now' _ _ (lookup_insert_eq _ _ _)) by done.
  unfold MemoryCache.standard_expires. simpl.
  rewrite Hin, !Z_neq_eqb by done. simpl. by rewrite Z.gtb_ltb.
Qed.

Lemma set_get_expireIn_witness :
  ∃ s1 : store,
    MemoryCache.set "key8" (VStr "V8")
      (SetOpts.Make (Some 1000) None VUndefined) testTime test_state
    = Ok (true, s1)
    ∧ MemoryCache.get "key8" GetOpts.empty (testTime + 1000) s1
      = Ok (VNull, s1).
Proof.
  apply (set_get_expireIn "key8" (VStr "V8")
    (SetOpts.Make (Some 1000) None VUndefined) GetOpts.empty testTime
    (testTime + 1000) 1000 test_state); try reflexivity; unfold testTime; lia.
Defined.

(** X3: [expireAt] counts only when [expireIn] is absent or 0: the item is
    then returned by a plain [get] exactly while [now' < expireAt], whatever
    the time of the [set] was. *)
Theorem set_get_expireAt k v opts gopts now now' t (s : store) :
  tags_accepted (SetOpts.tags opts) = true →
  truthy_num (SetOpts.expireIn opts) = false →
  SetOpts.expireAt opts = Some t → t ≠ 0 →
  GetOpts.force gopts = false →
  truthy_num (GetOpts.maxAge gopts) = false →
  ∃ s1 : store,
    MemoryCache.set k v opts now s = Ok (true, s1)
    ∧ MemoryCache.get k gopts now' s1
      = Ok (if now' <? t then v else MemoryCache._defaultOrNull gopts, s1).
Proof.
  intros Hok Hin Hat Ht Hforce Hmax.
  destruct (set_stores k v opts now Hok) as [tg Hset].
  eexists. split; [apply Hset|].
  rewrite (get_plain k gopts now' _ _ (lookup_insert_eq _ _ _)) by done.
  unfold MemoryCache.standard_expires, MemoryCache.expireAt_or_false. simpl.
  rewrite Hat.
  assert (match SetOpts.expireIn opts with
          | Some d => if negb (d =? 0) then ExpAt (now + d)
                      else if negb (t =? 0) then ExpAt t else ExpFalse
          | None => if negb (t =? 0) then ExpAt t else ExpFalse
          end = ExpAt t) as ->.
  { rewrite Z_neq_eqb by done.
    destruct (SetOpts.expireIn opts) as [d|]; [|done].
    simpl in Hin. by rewrite Hin. }
  rewrite Z_neq_eqb by done. simpl. by rewrite Z.gtb_ltb.
Qed.

Lemma set_get_expireAt_witness :
  ∃ s1 : store,
    MemoryCache.set "k" (VStr "v") (SetOpts.Make (Some 0) (Some 500) VUndefined)
      100 ∅ = Ok (true, s1)
    ∧ MemoryCache.get "k" GetOpts.empty 499 s1 = Ok (VStr "v", s1).
Proof.
  apply (set_get_expireAt "k" (VStr "v")
    (SetOpts.Make (Some 0) (Some 500) VUndefined) GetOpts.empty 100 499 500 ∅);
    try reflexivity; lia.
Defined.

(** X4: [set] restarts the age of its key: a [get] with [maxAge] [m] (not
    0, no [force]) at time [now'] after a [set] at time [now] returns the
    payload exactly when [now' - now < m], whatever expiry the [set] asked
    for. *)
Theorem set_get_maxAge k v opts gopts now now' m (s : store) :
  tags_accepted (SetOpts.tags opts) = true →
  GetOpts.force gopts = false →
  GetOpts.maxAge gopts = Some m → m ≠ 0 →
  ∃ s1 : store,
    MemoryCache.set k v opts now s = Ok (true, s1)
    ∧ MemoryCache.get k gopts now' s1
      = Ok (if now' - now <? m then v
            else MemoryCache._defaultOrNull gopts, s1).
Proof.
  intros Hok Hforce Hmax Hm.
  destruct (set_stores k v opts now Hok) as [tg Hset].
  eexists. split; [apply Hset|].
  rewrite (get_stored k gopts now' _ _ (lookup_insert_eq _ _ _)).
  rewrite Hforce, Hmax, Z_neq_eqb by done. simpl. by rewrite Z.gtb_ltb.
Qed.

(** An expiry in the past does not matter under [maxAge]. *)
Lemma set_get_maxAge_witness :
  ∃ s1 : store,
    MemoryCache.set "k" (VStr "v") (SetOpts.Make (Some (-5)) None VUndefined)
      100 ∅ = Ok (true, s1)
    ∧ MemoryCache.get "k" (GetOpts.Make VUndefined (Some 10) false) 109 s1
      = Ok (VStr "v", s1).
Proof.
  apply (set_get_maxAge "k" (VStr "v")
    (SetOpts.Make (Some (-5)) None VUndefined)
    (GetOpts.Make VUndefined (Some 10) false) 100 109 10 ∅);
    try reflexivity; lia.
Defined.

(** ** The sweep against the read *)

(** X6: at one and the same time, [deleteExpired] removes only items that a
    plain [get] (no [force], no truthy [maxAge]) already misses: a key that
    the sweep removed answered the default (or null) before the sweep. *)
Theorem sweep_removes_only_misses key opts now (s : store) it :
  s !! key = Some it →
  GetOpts.force opts = false →
  truthy_num (GetOpts.maxAge opts) = false →
  ∃ n (s' : store),
    MemoryCache.deleteExpired now s = Ok (n, s')
    ∧ (s' !! key = None →
       MemoryCache.get key opts now s
       = Ok (MemoryCache._defaultOrNull opts, s)).
Proof.
  intros Hk Hforce Hmax. eexists _, _.
  split; [apply deleteExpired_spec|].
  intros Hgone. rewrite (get_plain _ _ _ _ _ Hk) by done.
  assert (MemoryCache.sweepable now it = true) as Hsw.
  { by apply (proj1 (purge_lookup_None _ _ _) Hgone). }
  unfold MemoryCache.sweepable in Hsw. unfold MemoryCache.standard_expires.
  destruct (expires it) as [|t|]; try discriminate Hsw.
  apply andb_true_iff in Hsw as [_ Hgt]. apply Z.gtb_gt in Hgt.
  destruct (t >? now) eqn:Hfresh; [apply Z.gtb_gt in Hfresh; lia|].
  by rewrite andb_false_r.
Qed.

Lemma sweep_removes_only_misses_witness :
  ∃ n (s' : store),
    MemoryCache.deleteExpired testTime test_state = Ok (n, s')
    ∧ (s' !! "key3" = None →
       MemoryCache.get "key3" GetOpts.empty testTime test_state
       = Ok (VNull, test_state)).
Proof.
  apply (sweep_removes_only_misses "key3" GetOpts.empty testTime test_state
    (Item "key3" (VStr "v3") (Some ["bar"]) (ExpAt (testTime - 3600))
       (testTime - 7200))).
  - vm_compute. reflexivity.
  - reflexivity.
  - reflexivity.
Defined.

(** X7: an item whose [expires] is 0 or is absent is lost to reads and
    kept by the sweep: at every time a plain [get] misses it, and at every
    time [deleteExpired] leaves it in the store. *)
Theorem falsy_expires_missed_but_kept key opts (s : store) it :
  s !! key = Some it →
  expires it = ExpAt 0 ∨ expires it = ExpUndefined →
  GetOpts.force opts = false →
  truthy_num (GetOpts.maxAge opts) = false →
  ∀ now,
    MemoryCache.get key opts now s = Ok (MemoryCache._defaultOrNull opts, s)
    ∧ ∃ n (s' : store),
        MemoryCache.deleteExpired now s = Ok (n, s') ∧ s' !! key = Some it.
Proof.
  intros Hk Hexp Hforce Hmax now. split.
  - rewrite (get_plain _ _ _ _ _ Hk) by done.
    unfold MemoryCache.standard_expires. by destruct Hexp as [-> | ->].
  - eexists _, _. split; [apply deleteExpired_spec|].
    apply purge_lookup_Some. split; [done|].
    unfold MemoryCache.sweepable. by destruct Hexp as [-> | ->].
Qed.

Lemma falsy_expires_missed_but_kept_witness :
  MemoryCache.get "key6" GetOpts.empty testTime test_state
  = Ok (VNull, test_state)
  ∧ ∃ n (s' : store),
      MemoryCache.deleteExpired testTime test_state = Ok (n, s')
      ∧ s' !! "key6"
        = Some (Item "key6" (VStr "v6") (Some ["on.boom"]) ExpUndefined
                  testTime).
Proof.
  apply (falsy_expires_missed_but_kept "key6" GetOpts.empty test_state
    (Item "key6" (VStr "v6") (Some ["on.boom"]) ExpUndefined testTime)).
  - vm_compute. reflexivity.
  - right. reflexivity.
  - reflexivity.
  - reflexivity.
Defined.

(** ** [keys] and [count] *)

Lemma keys_false_spec now (s : store) :
  MemoryCache.keys false now s = Ok ((map_to_list s).*1, s).
Proof. reflexivity. Qed.

Lemma keys_true_spec now (s : store) :
  MemoryCache.keys true now s
  = Ok ((map_to_list (purge (MemoryCache.sweepable now) s)).*1,
        purge (MemoryCache.sweepable now) s).
Proof.
  unfold MemoryCache.keys.
  by rewrite (bind_Ok _ _ _ _ _ _ (deleteExpired_spec now s)).
Qed.

Lemma elem_of_keys (s : store) k :
  k ∈ (map_to_list s).*1 ↔ is_Some (s !! k).
Proof.
  rewrite list_elem_of_fmap. split.
  - intros ([k' it] & -> & Hk). apply elem_of_map_to_list in Hk. eauto.
  - intros [it Hk]. exists (k, it). split; [done|].
    by apply elem_of_map_to_list.
Qed.

Lemma count_false_spec now (s : store) :
  MemoryCache.count false now s = Ok (Z.of_nat (size s), s).
Proof.
  unfold MemoryCache.count. run_method.
  by rewrite length_fmap, length_map_to_list.
Qed.

Lemma count_true_spec now (s : store) :
  MemoryCache.count true now s
  = Ok (Z.of_nat (size (purge (MemoryCache.sweepable now) s)),
        purge (MemoryCache.sweepable now) s).
Proof.
  unfold MemoryCache.count.
  rewrite (bind_Ok _ _ _ _ _ _ (deleteExpired_spec now s)).
  run_method. by rewrite length_fmap, length_map_to_list.
Qed.

(** X8: [keys()] lists every stored key once, lists nothing else, and
    leaves the store as it was; [keys(true)] sweeps the store first and
    lists what the sweep left: the keys whose [expires] is not a timestamp
    other than 0 strictly before the current time. *)
Theorem keys_lists_the_store now (s : store) :
  (∃ ks,
     MemoryCache.keys false now s = Ok (ks, s)
     ∧ NoDup ks
     ∧ ∀ k, k ∈ ks ↔ is_Some (s !! k))
  ∧ (∃ ks (s' : store),
       MemoryCache.keys true now s = Ok (ks, s')
       ∧ NoDup ks
       ∧ (∀ k, k ∈ ks ↔ is_Some (s' !! k))
       ∧ ∀ k it, s' !! k = Some it
                 ↔ s !! k = Some it ∧ ¬ expired_nonzero now it).
Proof.
  split.
  - eexists. split; [apply keys_false_spec|].
    split; [apply NoDup_fst_map_to_list|apply elem_of_keys].
  - eexists _, _. split; [apply keys_true_spec|].
    split; [apply NoDup_fst_map_to_list|]. split; [apply elem_of_keys|].
    intros k it. rewrite purge_lookup_Some, <- sweepable_spec.
    by rewrite not_true_iff_false.
Qed.

(** X9: [count()] is the number of stored keys and changes nothing;
    [count(true)] is [count()] less what [deleteExpired] returns at that
    time, and it leaves the swept store behind, whose [count()] it is. *)
Theorem count_valid_is_count_less_expired now (s : store) :
  ∃ n0 n1 d (s' : store),
    MemoryCache.count false now s = Ok (n0, s)
    ∧ n0 = Z.of_nat (size s)
    ∧ MemoryCache.deleteExpired now s = Ok (d, s')
    ∧ MemoryCache.count true now s = Ok (n1, s')
    ∧ n1 = n0 - d
    ∧ ∀ now', MemoryCache.count false now' s' = Ok (n1, s').
Proof.
  eexists _, _, _, _. split; [apply count_false_spec|]. split; [done|].
  split; [apply deleteExpired_spec|]. split; [apply count_true_spec|].
  split; [lia|]. intros now'. apply count_false_spec.
Qed.

(** ** [clear] *)

(** X12: after [clear()] the cache holds nothing, whatever it held: every
    [get] answers the default (or null), [count()] is 0, [keys()] is empty
    and [deleteExpired] finds nothing to remove. *)
Theorem clear_empties now (s : store) :
  ∃ s1 : store,
    MemoryCache.clear now s = Ok (tt, s1)
    ∧ (∀ k opts t,
         MemoryCache.get k opts t s1
         = Ok (MemoryCache._defaultOrNull opts, s1))
    ∧ (∀ t, MemoryCache.count false t s1 = Ok (0, s1))
    ∧ (∀ t, MemoryCache.keys false t s1 = Ok ([], s1))
    ∧ (∀ t, MemoryCache.deleteExpired t s1 = Ok (0, s1)).
Proof.
  exists ∅. split; [done|]. split; [|split; [|split]].
  - intros k opts t. apply get_absent, lookup_empty.
  - intros t. by rewrite count_false_spec, map_size_empty.
  - intros t. by rewrite keys_false_spec, map_to_list_empty.
  - intros t. rewrite deleteExpired_spec.
    assert (purge (MemoryCache.sweepable t) (∅ : store) = ∅) as ->
      by apply map_filter_empty.
    by rewrite map_size_empty.
Qed.

(** ** Tag queries *)

Lemma size_purge_complement p (s : store) :
  size s
  = (size (purge p s) + size (filter (λ kv, ¬ p kv.2 = false) s))%nat.
Proof.
  unfold purge.
  rewrite <- (map_filter_union_complement (λ kv, p kv.2 = false) s) at 1.
  apply map_size_disj_union, map_disjoint_filter_complement.
Qed.

Lemma size_tagged_entries qs opts (s : store) :
  size (omap (tagged_entry qs opts) s)
  = size (filter (λ kv, ¬ matches qs (TagOpts.all opts) kv.2 = false) s).
Proof.
  rewrite <- !size_dom. f_equal. apply set_eq. intros k.
  rewrite !elem_of_dom. unfold is_Some. split.
  - intros [e He]. rewrite lookup_omap in He.
    destruct (s !! k) as [it|] eqn:Hk; [|done]. simpl in He.
    unfold tagged_entry in He. exists it. apply map_lookup_filter_Some.
    split; [done|]. simpl.
    by destruct (matches qs (TagOpts.all opts) it).
  - intros [it Hit]. apply map_lookup_filter_Some in Hit as [Hk Hm].
    simpl in Hm. rewrite lookup_omap, Hk. simpl. unfold tagged_entry.
    destruct (matches qs (TagOpts.all opts) it); [by eexists|done].
Qed.

(** X13: on a store that holds no key [__proto__], [deleteTagged] removes
    exactly the keys that [getTagged] returns for the same tags and options,
    its count is the number of entries of that result, and afterwards the
    same [getTagged] returns the empty object. *)
Theorem deleteTagged_removes_what_getTagged_returns q opts now (s : store) :
  s !! "__proto__" = None →
  match MemoryCache._paramArray q with
  | Ok qs =>
      ∃ (r : gmap string entry) n (s' : store),
        MemoryCache.getTagged q opts now s = Ok (r, s)
        ∧ MemoryCache.deleteTagged q opts now s = Ok (n, s')
        ∧ (∀ k, is_Some (r !! k) ↔ is_Some (s !! k) ∧ s' !! k = None)
        ∧ n = Z.of_nat (size r)
        ∧ MemoryCache.getTagged q opts now s' = Ok (∅, s')
  | Throw e =>
      MemoryCache.getTagged q opts now s = Throw e
      ∧ MemoryCache.deleteTagged q opts now s = Throw e
  end.
Proof.
  intros Hfree.
  destruct (MemoryCache._paramArray q) as [qs|e] eqn:Hq.
  - eexists _, _, _. split; [by apply getTagged_spec|].
    split; [by apply deleteTagged_spec|].
    rewrite (returned_entries_no_proto qs opts s Hfree).
    split; [|split].
    + intros k. rewrite lookup_omap, purge_lookup_None.
      destruct (s !! k) as [it|] eqn:Hk; simpl.
      * unfold tagged_entry. split.
        -- intros Hsome. split; [by eexists|]. intros it' [= <-].
           by destruct (matches qs (TagOpts.all opts) it);
             [|destruct Hsome].
        -- intros [_ Hm]. rewrite (Hm it eq_refl). by eexists.
      * split; [by intros []|by intros [[] _]].
    + rewrite size_tagged_entries.
      pose proof (size_purge_complement (matches qs (TagOpts.all opts)) s).
      lia.
    + rewrite (getTagged_spec _ _ _ _ _ Hq). do 2 f_equal.
      apply map_eq. intros k. rewrite returned_entries_lookup, lookup_empty.
      destruct (String.eqb k "__proto__"); [done|].
      destruct (purge (matches qs (TagOpts.all opts)) s !! k) as [it|] eqn:Hk;
        [|done].
      apply purge_lookup_Some in Hk as [_ Hm]. simpl.
      unfold tagged_entry. by rewrite Hm.
  - split; [by apply getTagged_throws|].
    by apply (deleteTagged_throws q opts e now s Hq).
Qed.

Lemma deleteTagged_removes_what_getTagged_returns_witness :
  ∃ (r : gmap string entry) n (s' : store),
    MemoryCache.getTagged (VStr "foo") TagOpts.empty testTime test_state
    = Ok (r, test_state)
    ∧ MemoryCache.deleteTagged (VStr "foo") TagOpts.empty testTime test_state
      = Ok (n, s')
    ∧ n = Z.of_nat (size r).
Proof.
  destruct (deleteTagged_removes_what_getTagged_returns (VStr "foo")
    TagOpts.empty testTime test_state) as (r & n & s' & Hget & Hdel & _ & Hn & _).
  - vm_compute. reflexivity.
  - exists r, n, s'. split; [exact Hget|]. split; [exact Hdel|exact Hn].
Defined.

Lemma matches_all_any t qs it :
  matches (t :: qs) true it = true → matches (t :: qs) false it = true.
Proof.
  unfold matches. destruct (tags it) as [arr|]; [|done]. simpl.
  intros [Ht _]%andb_true_iff. by rewrite Ht.
Qed.

(** X14: for a query of at least one tag, what [getTagged] returns under
    [all: true] it also returns without it, with the same entry. *)
Theorem getTagged_all_within_any q t qs meta now (s : store) :
  MemoryCache._paramArray q = Ok (t :: qs) →
  ∃ r_all r_any : gmap string entry,
    MemoryCache.getTagged q (TagOpts.Make true meta) now s = Ok (r_all, s)
    ∧ MemoryCache.getTagged q (TagOpts.Make false meta) now s = Ok (r_any, s)
    ∧ ∀ k e, r_all !! k = Some e → r_any !! k = Some e.
Proof.
  intros Hq. eexists _, _. split; [by apply getTagged_spec|].
  split; [by apply getTagged_spec|].
  intros k e. rewrite !returned_entries_lookup.
  destruct (String.eqb k "__proto__"); [done|].
  destruct (s !! k) as [it|]; [|done]. simpl.
  unfold tagged_entry, entry_of. simpl.
  destruct (matches (t :: qs) true it) eqn:Hall; [|done].
  by rewrite (matches_all_any _ _ _ Hall).
Qed.

Lemma getTagged_all_within_any_witness :
  ∃ r_all r_any : gmap string entry,
    MemoryCache.getTagged (VStr "foo bar") (TagOpts.Make true false)
      testTime test_state = Ok (r_all, test_state)
    ∧ MemoryCache.getTagged (VStr "foo bar") (TagOpts.Make false false)
        testTime test_state = Ok (r_any, test_state)
    ∧ ∀ k e, r_all !! k = Some e → r_any !! k = Some e.
Proof.
  apply (getTagged_all_within_any (VStr "foo bar") "foo" ["bar"] false
    testTime test_state).
  reflexivity.
Defined.

(** X15: the empty array as a query.  Without [all] it matches nothing:
    [getTagged] returns the empty object and [deleteTagged] removes nothing
    and returns 0.  Under [all: true] it matches every item that has a tag
    array: [deleteTagged] then leaves exactly the items stored without
    tags. *)
Theorem empty_query meta now (s : store) :
  MemoryCache.getTagged (VArr []) (TagOpts.Make false meta) now s = Ok (∅, s)
  ∧ MemoryCache.deleteTagged (VArr []) (TagOpts.Make false meta) now s
    = Ok (0, s)
  ∧ ∃ n (s' : store),
      MemoryCache.deleteTagged (VArr []) (TagOpts.Make true meta) now s
      = Ok (n, s')
      ∧ n = Z.of_nat (size s) - Z.of_nat (size s')
      ∧ ∀ k it, s' !! k = Some it ↔ s !! k = Some it ∧ tags it = None.
Proof.
  assert (∀ it, matches [] false it = false) as Hany.
  { intros it. unfold matches. by destruct (tags it). }
  split; [|split].
  - rewrite (getTagged_spec (VArr []) _ [] now s eq_refl). do 2 f_equal.
    apply map_eq. intros k. rewrite returned_entries_lookup, lookup_empty.
    destruct (String.eqb k "__proto__"); [done|].
    destruct (s !! k) as [it|]; [|done]. simpl.
    unfold tagged_entry. simpl. by rewrite Hany.
  - rewrite (deleteTagged_spec (VArr []) _ [] now s eq_refl). simpl.
    assert (purge (matches [] false) s = s) as ->.
    { apply map_filter_id. intros k it _. apply Hany. }
    do 2 f_equal. lia.
  - eexists _, _.
    split; [apply (deleteTagged_spec (VArr []) _ [] now s eq_refl)|].
    split; [done|]. intros k it. simpl. rewrite purge_lookup_Some.
    unfold matches. destruct (tags it); simpl; split; intros [? ?]; done.
Qed.

Lemma set_stores_tags k v ei ea q qs now (s : store) :
  truthy q = true →
  MemoryCache._paramArray q = Ok qs →
  ∃ e,
    MemoryCache.set k v (SetOpts.Make ei ea q) now s
    = Ok (true, <[k := Item k v (Some qs) e now]> s).
Proof.
  intros Htruthy Hq. unfold MemoryCache.set. run_method.
  rewrite Htruthy, Hq. by eexists.
Qed.

(** X16: tags round trip through [set] and [getTagged]: after a [set]
    under a key other than [__proto__] whose [tags] option is a truthy
    string or an array, [getTagged] with that same tags value and
    [all: true] returns the key with its payload; without [all] it does so
    when the tags are at least one. *)
Theorem set_getTagged k v ei ea q qs now now' (s : store) :
  k ≠ "__proto__" →
  truthy q = true →
  MemoryCache._paramArray q = Ok qs →
  ∃ (s1 : store) (r_all r_any : gmap string entry),
    MemoryCache.set k v (SetOpts.Make ei ea q) now s = Ok (true, s1)
    ∧ MemoryCache.getTagged q (TagOpts.Make true false) now' s1
      = Ok (r_all, s1)
    ∧ MemoryCache.getTagged q (TagOpts.Make false false) now' s1
      = Ok (r_any, s1)
    ∧ r_all !! k = Some (EPayload v)
    ∧ (qs ≠ [] → r_any !! k = Some (EPayload v)).
Proof.
  intros Hk Htruthy Hq.
  destruct (set_stores_tags k v ei ea q qs now s Htruthy Hq) as [e Hset].
  eexists _, _, _. split; [exact Hset|].
  split; [by apply getTagged_spec|]. split; [by apply getTagged_spec|].
  rewrite !returned_entries_lookup, (proj2 (String.eqb_neq _ _) Hk).
  rewrite lookup_insert_eq. simpl.
  unfold tagged_entry, entry_of. simpl.
  assert (matches qs true (Item k v (Some qs) e now) = true) as Hall.
  { apply (matches_tagged qs true (Item k v (Some qs) e now) qs eq_refl).
    by intros t Ht. }
  rewrite Hall. split; [done|]. intros Hne.
  destruct qs as [|t qs]; [done|].
  by rewrite (matches_all_any _ _ _ Hall).
Qed.

Lemma set_getTagged_witness :
  ∃ (s1 : store) (r_all r_any : gmap string entry),
    MemoryCache.set "k" (VStr "v") (SetOpts.Make None None (VStr "foo bar"))
      100 ∅ = Ok (true, s1)
    ∧ MemoryCache.getTagged (VStr "foo bar") (TagOpts.Make true false) 200 s1
      = Ok (r_all, s1)
    ∧ MemoryCache.getTagged (VStr "foo bar") (TagOpts.Make false false) 200 s1
      = Ok (r_any, s1)
    ∧ r_all !! "k" = Some (EPayload (VStr "v"))
    ∧ (["foo"; "bar"] ≠ [] → r_any !! "k" = Some (EPayload (VStr "v"))).
Proof.
  apply (set_getTagged "k" (VStr "v") None None (VStr "foo bar")
    ["foo"; "bar"] 100 200 ∅); [discriminate|reflexivity|reflexivity].
Defined.

(** ** The tokens of [_paramArray] *)

Lemma is_blank_is_space c : is_blank c = true → is_space c = true.
Proof. unfold is_blank. by intros ->%Ascii.eqb_eq. Qed.

Lemma not_space_not_blank c : is_space c = false → is_blank c = false.
Proof. apply is_space_space. Qed.

Lemma replace_spaces_space_only s : ∀ b,
  all_chars space_only (replace_spaces b s) = true.
Proof.
  induction s as [|c s IH]; intros b; [done|]. simpl.
  destruct (is_space c) eqn:Hc.
  - destruct b; [apply IH|]. simpl. by rewrite IH.
  - simpl. unfold space_only at 1. by rewrite Hc, IH.
Qed.

Lemma trimStart_all_chars f s :
  all_chars f s = true → all_chars f (trimStart s) = true.
Proof.
  induction s as [|c s IH]; [done|]. simpl.
  intros [Hc Hs]%andb_true_iff.
  destruct (is_space c); [by apply IH|]. simpl. by rewrite Hc, Hs.
Qed.

Lemma trimEnd_all_chars f s :
  all_chars f s = true → all_chars f (trimEnd s) = true.
Proof.
  induction s as [|c s IH]; [done|]. simpl.
  intros [Hc Hs]%andb_true_iff. specialize (IH Hs).
  destruct (trimEnd s) as [|c' r].
  - destruct (is_space c); [done|]. simpl. by rewrite Hc.
  - simpl in *. by rewrite Hc, IH.
Qed.

Lemma split_tokens_no_white_space s :
  all_chars space_only s = true →
  no_space (split_tokens s).1 = true
  ∧ Forall (λ t, no_space t = true) (split_tokens s).2.
Proof.
  induction s as [|c s IH]; [by split|]. simpl.
  intros [Hc Hs]%andb_true_iff. destruct (IH Hs) as [Htok Hrest].
  destruct (split_tokens s) as [tok rest]. simpl in *.
  fold (is_blank c). destruct (is_blank c) eqn:Hb; simpl.
  - split; [done|by constructor].
  - split; [|done]. unfold space_only in Hc. rewrite Hb, orb_false_r in Hc.
    by rewrite Hc, Htok.
Qed.

Lemma replace_spaces_no_double s : ∀ b,
  no_double (replace_spaces b s) = true
  ∧ (b = true → starts_blank (replace_spaces b s) = false).
Proof.
  induction s as [|c s IH]; intros b; [by split|]. simpl.
  destruct (is_space c) eqn:Hc.
  - destruct b; [apply IH|]. destruct (IH true) as [Hnd Hsb].
    split; [|done]. simpl. by rewrite Hsb, Hnd.
  - destruct (IH false) as [Hnd _]. simpl.
    rewrite (not_space_not_blank _ Hc), Hnd. by split.
Qed.

Lemma trimStart_no_double s :
  no_double s = true → no_double (trimStart s) = true.
Proof.
  induction s as [|c s IH]; [done|]. simpl.
  intros [Hc Hs]%andb_true_iff.
  destruct (is_space c); [by apply IH|]. simpl. by rewrite Hc, Hs.
Qed.

Lemma trimStart_starts s : starts_blank (trimStart s) = false.
Proof.
  induction s as [|c s IH]; [done|]. simpl.
  destruct (is_space c) eqn:Hc; [done|]. simpl.
  by apply not_space_not_blank.
Qed.

Lemma trimEnd_head s c r : trimEnd s = String c r → ∃ s', s = String c s'.
Proof.
  destruct s as [|c0 s]; [done|]. simpl.
  destruct (trimEnd s); [destruct (is_space c0)|];
    intros [= <- _]; by eexists.
Qed.

Lemma trimEnd_starts s :
  starts_blank s = false → starts_blank (trimEnd s) = false.
Proof.
  destruct s as [|c s]; [done|]. simpl. intros Hc.
  destruct (trimEnd s); [by destruct (is_space c)|done].
Qed.

Lemma trimEnd_no_double s :
  no_double s = true → no_double (trimEnd s) = true.
Proof.
  induction s as [|c s IH]; [done|]. simpl.
  intros [Hc Hs]%andb_true_iff. specialize (IH Hs).
  destruct (trimEnd s) as [|c' r] eqn:Hr.
  - destruct (is_space c); [done|]. simpl. by rewrite andb_false_r.
  - destruct (trimEnd_head _ _ _ Hr) as [s' ->].
    simpl in Hc. cbn [no_double starts_blank]. cbn [no_double] in IH.
    by rewrite Hc, IH.
Qed.

Lemma trimEnd_no_trailing s : no_trailing (trimEnd s) = true.
Proof.
  induction s as [|c s IH]; [done|]. simpl.
  destruct (trimEnd s) as [|c' r].
  - destruct (is_space c) eqn:Hc; [done|]. simpl.
    by rewrite (not_space_not_blank _ Hc).
  - done.
Qed.

Lemma no_trailing_tail c s :
  no_trailing (String c s) = true → no_trailing s = true.
Proof. by destruct s. Qed.

Lemma split_tokens_nonempty s :
  no_double s = true → no_trailing s = true →
  Forall (λ t, nonempty t = true) (split_tokens s).2
  ∧ (nonempty (split_tokens s).1 = false →
     s = EmptyString ∨ starts_blank s = true).
Proof.
  induction s as [|c s IH]; [by split; [constructor|left]|].
  intros Hnd Htr. pose proof (no_trailing_tail _ _ Htr) as Htr'.
  simpl in Hnd. apply andb_true_iff in Hnd as [Hc Hnd].
  destruct (IH Hnd Htr') as [Hrest Htok]. simpl.
  destruct (split_tokens s) as [tok rest]. simpl in *.
  fold (is_blank c). destruct (is_blank c) eqn:Hb; simpl.
  - split; [|by right]. constructor; [|done].
    destruct (nonempty tok) eqn:Hne; [done|].
    destruct (Htok eq_refl) as [-> | Hsb].
    + discriminate Htr.
    + rewrite Hsb in Hc. discriminate Hc.
  - by split.
Qed.

Lemma replace_spaces_blank s : ∀ b,
  all_chars is_space (replace_spaces b s) = all_chars is_space s.
Proof.
  induction s as [|c s IH]; intros b; [done|]. simpl.
  destruct (is_space c) eqn:Hc.
  - destruct b; [apply IH|]. simpl. apply IH.
  - simpl. by rewrite Hc.
Qed.

Lemma trimStart_blank s :
  all_chars is_space (trimStart s) = all_chars is_space s.
Proof.
  induction s as [|c s IH]; [done|]. simpl.
  destruct (is_space c) eqn:Hc; [done|]. simpl. by rewrite Hc.
Qed.

Lemma trimEnd_empty s :
  trimEnd s = EmptyString ↔ all_chars is_space s = true.
Proof.
  induction s as [|c s IH]; [done|]. simpl.
  destruct (trimEnd s) as [|c' r].
  - destruct (is_space c); simpl; [|done]. split; intros _.
    + by apply IH.
    + done.
  - split; [done|]. intros [_ Hs]%andb_true_iff.
    by apply IH in Hs.
Qed.

(** X17: what [_paramArray] makes of a string.  There is always at least
    one token and no token holds white space.  When the string is empty or
    all white space the result is the single empty token; otherwise no token
    is empty. *)
Theorem _paramArray_tokens s :
  ∃ tok rest,
    MemoryCache._paramArray (VStr s) = Ok (tok :: rest)
    ∧ Forall (λ t, no_space t = true) (tok :: rest)
    ∧ if all_chars is_space s
      then tok = EmptyString ∧ rest = []
      else Forall (λ t, nonempty t = true) (tok :: rest).
Proof.
  unfold MemoryCache._paramArray, split_space.
  set (u := trim (replace_spaces false s)).
  assert (all_chars space_only u = true) as Hso.
  { apply trimEnd_all_chars, trimStart_all_chars,
      replace_spaces_space_only. }
  assert (no_double u = true) as Hnd.
  { apply trimEnd_no_double, trimStart_no_double, replace_spaces_no_double. }
  assert (no_trailing u = true) as Htr by apply trimEnd_no_trailing.
  assert (starts_blank u = false) as Hsb
    by apply trimEnd_starts, trimStart_starts.
  assert (u = EmptyString ↔ all_chars is_space s = true) as Hu.
  { unfold u, trim.
    by rewrite trimEnd_empty, trimStart_blank, replace_spaces_blank. }
  destruct (split_tokens_no_white_space u Hso) as [Htok Hrest].
  destruct (split_tokens_nonempty u Hnd Htr) as [Hne Hfirst].
  destruct (split_tokens u) as [tok rest] eqn:Hsplit. simpl in *.
  exists tok, rest. split; [done|]. split; [by constructor|].
  destruct (all_chars is_space s) eqn:Hblank.
  - rewrite (proj2 Hu eq_refl) in Hsplit. by injection Hsplit as <- <-.
  - constructor; [|done]. destruct (nonempty tok) eqn:Htk; [done|].
    destruct (Hfirst eq_refl) as [Hempty | Hstart].
    + apply Hu in Hempty. discriminate Hempty.
    + by rewrite Hstart in Hsb.
Qed.

(** ** The modes of [export] *)

Lemma persistent_items_lookup (s : store) k it :
  persistent_items s !! k = Some it
  ↔ s !! k = Some it ∧ k ≠ "__proto__"
    ∧ expiry_truthy (expires it) = false.
Proof. unfold persistent_items. by rewrite map_lookup_filter_Some. Qed.

Section ExportModes.

Variable JSON_stringify : store -> res string.
Variable JSON_parse : string -> res store.

Lemma export_persistent_spec e o now (s : store) :
  MemoryCache.export JSON_stringify JSON_parse (ExportOpts.Make true e o) now s
  = match JSON_stringify (persistent_items s) with
    | Ok txt =>
        if o
        then match JSON_parse txt with
             | Ok c => Ok (ExportedObject c, s)
             | Throw err => Throw err
             end
        else Ok (ExportedJSON txt, s)
    | Throw err => Throw err
    end.
Proof.
  unfold MemoryCache.export. simpl. unfold bind at 1 2, Object_keys at 1.
  rewrite (for_of_collect_keys
             (λ k it, if String.eqb k "__proto__" then None
                      else if negb (expiry_truthy (expires it)) then Some it
                      else None)).
  - assert (map_imap
              (λ k it, if String.eqb k "__proto__" then None
                       else if negb (expiry_truthy (expires it)) then Some it
                       else None) s = persistent_items s) as ->.
    { apply map_eq. intros k. apply option_eq. intros it.
      rewrite persistent_items_lookup, map_lookup_imap.
      destruct (s !! k) as [it'|]; simpl; [|by split; [|intros []]].
      destruct (String.eqb k "__proto__") eqn:Hk.
      - apply String.eqb_eq in Hk as ->. split; [done|]. by intros (_ & ? & _).
      - apply String.eqb_neq in Hk.
        destruct (expiry_truthy (expires it')) eqn:He; simpl.
        + split; [done|]. intros ([= ->] & _ & Hf). congruence.
        + split; [by intros [= ->]|by intros [? _]]. }
    run_method. destruct (JSON_stringify _); [|done].
    destruct o; [|done]. by destruct (JSON_parse _).
  - intros k picked it Hk. run_method. rewrite Hk. unfold literal_put.
    by destruct (String.eqb k "__proto__"),
      (expiry_truthy (expires it)).
Qed.

Lemma export_expired_spec o now (s : store) :
  MemoryCache.export JSON_stringify JSON_parse (ExportOpts.Make false true o)
    now s
  = match JSON_stringify s with
    | Ok txt =>
        if o
        then match JSON_parse txt with
             | Ok c => Ok (ExportedObject c, s)
             | Throw err => Throw err
             end
        else Ok (ExportedJSON txt, s)
    | Throw err => Throw err
    end.
Proof.
  unfold MemoryCache.export. run_method. destruct (JSON_stringify _); [|done].
  destruct o; [|done]. by destruct (JSON_parse _).
Qed.

Variable serializable : value -> Prop.

Hypothesis JSON_roundtrip : ∀ o : store,
  payloads_ok serializable o →
  ∃ txt, JSON_stringify o = Ok txt ∧ JSON_parse txt = Ok o.

(** X18: on a store of serializable payloads, [export({expired: true})]
    leaves the store as it is, and [import] of its result, into any
    instance, makes that instance's store equal to it: every item comes
    back, expired or not. *)
Theorem export_expired_import_identity now (s : store) :
  payloads_ok serializable s →
  ∃ txt,
    MemoryCache.export JSON_stringify JSON_parse
      (ExportOpts.Make false true false) now s = Ok (ExportedJSON txt, s)
    ∧ ∀ now' (other : store),
        MemoryCache.import JSON_parse (ImportString txt) now' other
        = Ok (true, s).
Proof.
  intros Hs. destruct (JSON_roundtrip s Hs) as (txt & Hprint & Hparse).
  exists txt. split; [by rewrite export_expired_spec, Hprint|].
  intros now' other. by rewrite import_string_spec, Hparse.
Qed.

(** X20: [export()] sweeps the cache it exports: with [object: true] on a
    store of serializable payloads, the object returned and the store left
    behind are both the store that [deleteExpired] leaves at that time. *)
Theorem export_object_is_swept_store now (s : store) :
  payloads_ok serializable s →
  ∃ n (s' : store),
    MemoryCache.deleteExpired now s = Ok (n, s')
    ∧ MemoryCache.export JSON_stringify JSON_parse
        (ExportOpts.Make false false true) now s
      = Ok (ExportedObject s', s').
Proof.
  intros Hs. eexists _, _. split; [apply deleteExpired_spec|].
  destruct (JSON_roundtrip (purge (MemoryCache.sweepable now) s))
    as (txt & Hprint & Hparse); [by apply purge_payloads_ok|].
  unfold MemoryCache.export. simpl. unfold bind at 1 2.
  rewrite deleteExpired_spec. run_method. by rewrite Hprint, Hparse.
Qed.

End ExportModes.

Lemma export_expired_import_identity_witness :
  ∃ txt,
    MemoryCache.export bits_stringify bits_parse
      (ExportOpts.Make false true false) testTime test_state
    = Ok (ExportedJSON txt, test_state)
    ∧ ∀ now' (other : store),
        MemoryCache.import bits_parse (ImportString txt) now' other
        = Ok (true, test_state).
Proof.
  apply (export_expired_import_identity bits_stringify bits_parse (λ _, True)
    (bits_roundtrip (λ _, True)) testTime test_state).
  intros k it _. exact I.
Defined.

Lemma export_object_is_swept_store_witness :
  ∃ n (s' : store),
    MemoryCache.deleteExpired testTime test_state = Ok (n, s')
    ∧ MemoryCache.export bits_stringify bits_parse
        (ExportOpts.Make false false true) testTime test_state
      = Ok (ExportedObject s', s').
Proof.
  apply (export_object_is_swept_store bits_stringify bits_parse (λ _, True)
    (bits_roundtrip (λ _, True)) testTime test_state).
  intros k it _. exact I.
Defined.

(** ** The garbage-collection timer *)

Lemma gcStop_inv T0 c T :
  gc_inv T0 (c, T) →
  gc_inv T0 ((MemoryCache.gcStop c T).1.2, (MemoryCache.gcStop c T).2)
  ∧ MemoryCache.gcTimer (MemoryCache.gcStop c T).1.2 = None
  ∧ MemoryCache.config_gc (MemoryCache.gcStop c T).1.2
    = MemoryCache.config_gc c.
Proof.
  unfold gc_inv, MemoryCache.gcStop. simpl.
  destruct (MemoryCache.gcTimer c) as [h|] eqn:Hh; simpl.
  - intros [Hfree ->]. split; [|done].
    unfold MemoryCache.clearInterval. by apply delete_insert_id.
  - intros ->. by rewrite Hh.
Qed.

Lemma gc_step_inv T0 op st :
  gc_inv T0 st →
  gc_inv T0 (gc_step op st)
  ∧ MemoryCache.config_gc (gc_step op st).1 = MemoryCache.config_gc st.1.
Proof.
  destruct st as [c T]. intros Hinv. destruct op; simpl.
  - unfold MemoryCache.gcStart.
    destruct (gcStop_inv T0 c T Hinv) as (Hstop & Hnone & Hgc).
    destruct (MemoryCache.gcStop c T) as [[b c1] T1]. simpl in *.
    unfold gc_inv in Hstop. simpl in Hstop. rewrite Hnone in Hstop.
    subst T1. unfold gc_inv. simpl. split; [|done]. split; [|done].
    apply not_elem_of_dom, is_fresh.
  - destruct (gcStop_inv T0 c T Hinv) as (Hstop & _ & Hgc).
    by destruct (MemoryCache.gcStop c T) as [[b c1] T1].
  - unfold MemoryCache.dispose.
    destruct (gcStop_inv T0
                {| MemoryCache.config_gc := MemoryCache.config_gc c;
                   MemoryCache.dollar := None;
                   MemoryCache.gcTimer := MemoryCache.gcTimer c |} T)
      as (Hstop & _ & Hgc); [done|].
    by destruct (MemoryCache.gcStop _ T) as [[b c1] T1].
Qed.

Lemma gc_run_inv T0 ops : ∀ st,
  gc_inv T0 st →
  gc_inv T0 (gc_run ops st)
  ∧ MemoryCache.config_gc (gc_run ops st).1 = MemoryCache.config_gc st.1.
Proof.
  induction ops as [|op ops IH]; intros st Hinv; [done|]. simpl.
  destruct (gc_step_inv T0 op st Hinv) as [Hstep Hgc].
  destruct (IH _ Hstep) as [Hrun Hgc']. split; [done|congruence].
Qed.

(** X21: the timer of an instance never leaks.  Take a fresh instance and
    the runtime's table [T0] of interval timers; after any sequence of
    [gcStart], [gcStop] and [dispose], the table is [T0] again when
    [gcStatus()] is false, and [T0] plus one new timer when it is true.
    The delay asked for is [opts.gc] seconds, or 600 when [opts.gc] is
    absent or 0, in milliseconds; the timer has that delay, or 1 millisecond
    when that is below 1 or above 2^31 - 1. *)
Theorem gc_timer_never_leaks opts (T0 : gmap positive Z) ops :
  let st := gc_run ops (MemoryCache.constructor opts, T0) in
  let seconds :=
    match CacheOpts.gc opts with
    | Some g => if g =? 0 then 600 else g
    | None => 600
    end in
  if MemoryCache.gcStatus st.1
  then ∃ h, MemoryCache.gcTimer st.1 = Some h
            ∧ T0 !! h = None
            ∧ st.2 = <[h := MemoryCache.timer_delay (seconds * 1000)]> T0
  else st.2 = T0.
Proof.
  intros st seconds.
  destruct (gc_run_inv T0 ops (MemoryCache.constructor opts, T0)) as [Hinv Hgc];
    [done|].
  fold st in Hinv, Hgc. unfold gc_inv in Hinv. unfold MemoryCache.gcStatus.
  assert (MemoryCache.config_gc st.1 = seconds) as Hsec.
  { rewrite Hgc. unfold seconds. simpl.
    destruct (CacheOpts.gc opts) as [g|]; [|done]. by destruct (g =? 0). }
  destruct (MemoryCache.gcTimer st.1) as [h|]; [|done].
  destruct Hinv as [Hfree Htable]. exists h. by rewrite <- Hsec.
Qed.

(** ** Sweeps in a row *)

Lemma purge_purge_weaker p1 p2 (s : store) :
  (∀ it, p1 it = true → p2 it = true) →
  purge p2 (purge p1 s) = purge p2 s.
Proof.
  intros Himp. apply map_eq. intros k. apply option_eq. intros it.
  rewrite !purge_lookup_Some. split; [tauto|].
  intros [Hk Hp2]. split; [|done]. split; [done|].
  destruct (p1 it) eqn:Hp1; [|done]. rewrite (Himp it Hp1) in Hp2. done.
Qed.

(** X22: a sweep followed by a later sweep leaves the store that the later
    sweep alone would leave, and the two counts add up to the count of the
    later sweep alone. *)
Theorem deleteExpired_then_later now now' (s : store) :
  now ≤ now' →
  ∃ n1 n2 n (s1 s2 : store),
    MemoryCache.deleteExpired now s = Ok (n1, s1)
    ∧ MemoryCache.deleteExpired now' s1 = Ok (n2, s2)
    ∧ MemoryCache.deleteExpired now' s = Ok (n, s2)
    ∧ n = n1 + n2.
Proof.
  intros Hle. eexists _, _, _, _, _.
  split; [apply deleteExpired_spec|]. split; [apply deleteExpired_spec|].
  assert (purge (MemoryCache.sweepable now')
            (purge (MemoryCache.sweepable now) s)
          = purge (MemoryCache.sweepable now') s) as Hsame.
  { apply purge_purge_weaker. intros it. rewrite !sweepable_spec.
    intros (t & Ht & Hz & Hlt). exists t. split; [done|]. split; [done|lia]. }
  split; [by rewrite deleteExpired_spec, Hsame|]. rewrite Hsame. lia.
Qed.

Lemma deleteExpired_then_later_witness :
  ∃ n1 n2 n (s1 s2 : store),
    MemoryCache.deleteExpired (testTime - 3600) test_state = Ok (n1, s1)
    ∧ MemoryCache.deleteExpired (testTime + 3601) s1 = Ok (n2, s2)
    ∧ MemoryCache.deleteExpired (testTime + 3601) test_state = Ok (n, s2)
    ∧ n = n1 + n2.
Proof.
  apply (deleteExpired_then_later (testTime - 3600) (testTime + 3601)
    test_state).
  unfold testTime. lia.
Defined.

(** ** The two tag helpers *)

(** X23: on an item that has a tag array, [_itemHasAllTags] answers true
    exactly when every query tag is in the array and [_itemHasAnyTag]
    exactly when some query tag is; on an item stored without tags both
    throw a TypeError as soon as the query has a tag, and answer true and
    false on the empty query. *)
Theorem tag_helpers it q :
  match tags it with
  | Some arr =>
      (∃ b, MemoryCache._itemHasAllTags it q = Ok b
            ∧ (b = true ↔ all_match arr q))
      ∧ (∃ b, MemoryCache._itemHasAnyTag it q = Ok b
              ∧ (b = true ↔ any_match arr q))
  | None =>
      match q with
      | [] =>
          MemoryCache._itemHasAllTags it q = Ok true
          ∧ MemoryCache._itemHasAnyTag it q = Ok false
      | _ :: _ =>
          MemoryCache._itemHasAllTags it q = Throw TypeError
          ∧ MemoryCache._itemHasAnyTag it q = Throw TypeError
      end
  end.
Proof.
  destruct (tags it) as [arr|] eqn:Htags.
  - split; eexists.
    + split; [by apply _itemHasAllTags_tagged|apply forallb_includes].
    + split; [by apply _itemHasAnyTag_tagged|apply existsb_includes].
  - destruct q as [|t q]; [done|]. simpl.
    unfold MemoryCache.item_tags_includes. by rewrite Htags.
Qed.

(** * The store as an object with a prototype *)

(** ** Numbers *)

Lemma round_double_safe z : safe_integer z → round_double z = z.
Proof.
  intros [Hlo Hhi]. unfold round_double.
  assert (Z.log2 (Z.abs z) - 52 <= 0) as He.
  { destruct (decide (Z.abs z = 0)) as [->|Hz]; [done|].
    assert (Z.log2 (Z.abs z) < 53); [|lia].
    apply Z.log2_lt_pow2; lia. }
  apply Z.leb_le in He. by rewrite He.
Qed.

Lemma number_add_safe x y : safe_integer (x + y) → number_add x y = x + y.
Proof. apply round_double_safe. Qed.

(** Beyond the safe integers the sum is rounded: [1 + 2^53] is [2^53]. *)
Example number_add_rounds : number_add 1 (2 ^ 53) = 2 ^ 53.
Proof. vm_compute. reflexivity. Qed.

(** ** Reads and writes *)

Lemma read_own (o : object) k it :
  own o !! k = Some it → WithPrototype.read o k = MItem it.
Proof. unfold WithPrototype.read. by intros ->. Qed.

Lemma read_absent (o : object) k :
  own o !! k = None → not_inherited o k →
  WithPrototype.read o k = MValue VUndefined.
Proof. unfold WithPrototype.read, not_inherited. by intros ->. Qed.

Lemma not_inherited_bare (s : store) k : not_inherited (bare s) k.
Proof. done. Qed.

(** After [this.$[key] = it] the read [this.$[key]] finds [it], also when
    the write went to the setter of [__proto__]; the own properties under
    other names are as they were. *)
Lemma read_write k it (o : object) :
  WithPrototype.read (WithPrototype.write k it o) k = MItem it.
Proof.
  unfold WithPrototype.write.
  destruct (own o !! k) as [it0|] eqn:Hk.
  - apply read_own. simpl. apply lookup_insert_eq.
  - destruct (String.eqb k "__proto__" && WithPrototype.has_setter (proto o))
      eqn:Hp.
    + apply andb_true_iff in Hp as [->%String.eqb_eq _].
      unfold WithPrototype.read. simpl. by rewrite Hk.
    + apply read_own. simpl. apply lookup_insert_eq.
Qed.


Lemma size_write k it (o : object) :
  size (own (WithPrototype.write k it o))
  = match own o !! k with
    | Some _ => size (own o)
    | None =>
        if String.eqb k "__proto__" && WithPrototype.has_setter (proto o)
        then size (own o) else S (size (own o))
    end.
Proof.
  unfold WithPrototype.write.
  destruct (own o !! k) as [it0|] eqn:Hk.
  - simpl. rewrite map_size_insert, Hk. done.
  - destruct (String.eqb k "__proto__" && WithPrototype.has_setter (proto o));
      simpl; [done|]. by rewrite map_size_insert, Hk.
Qed.

(** ** [set] *)

Lemma new_item_accepted k v opts now :
  tags_accepted (SetOpts.tags opts) = true →
  ∃ tg,
    WithPrototype.new_item k v opts now
    = Ok (Item k v tg
            match SetOpts.expireIn opts with
            | Some d =>
                if negb (d =? 0) then ExpAt (number_add now d)
                else MemoryCache.expireAt_or_false opts
            | None => MemoryCache.expireAt_or_false opts
            end now).
Proof.
  intros Hok. unfold WithPrototype.new_item.
  destruct (SetOpts.tags opts) as [| |b|n|str|arr]; simpl in *;
    try discriminate Hok; try (by eexists).
  - destruct b; [discriminate Hok|by eexists].
  - destruct (negb (n =? 0)); [discriminate Hok|by eexists].
  - destruct (negb (String.eqb str "")); by eexists.
Qed.


(** C4, as amended: in a [set] call that stores an item, an [expireIn] that
    is given and is not 0 is stored as the absolute timestamp
    [now + expireIn], whatever [expireAt] is, the sum being exact as long as
    the clock, the duration and their sum are safe integers; when neither
    option is given, [expires] is the never-expires marker [false].  The
    item is what a read of the key finds afterwards, on a store with or
    without a prototype. *)
Theorem set_expireIn_absolute k v opts now (o : object) :
  tags_accepted (SetOpts.tags opts) = true →
  ∃ it o',
    WithPrototype.set k v opts now o = Ok (true, o')
    ∧ WithPrototype.read o' k = MItem it
    ∧ (∀ d, SetOpts.expireIn opts = Some d → d ≠ 0 →
            safe_integer now → safe_integer d → safe_integer (now + d) →
            expires it = ExpAt (now + d))
    ∧ (SetOpts.expireIn opts = None → SetOpts.expireAt opts = None →
       expires it = ExpFalse).
Proof.
  intros Hok. destruct (new_item_accepted k v opts now Hok) as [tg Hnew].
  unfold WithPrototype.set. rewrite Hnew. eexists _, _.
  split; [reflexivity|]. split; [apply read_write|]. simpl. split.
  - intros d -> Hd _ _ Hsum. by rewrite Z_neq_eqb, number_add_safe.
  - intros -> Hat. unfold MemoryCache.expireAt_or_false. by rewrite Hat.
Qed.

Lemma set_expireIn_absolute_witness :
  ∃ it o',
    WithPrototype.set "key8" (VStr "V8")
      (SetOpts.Make (Some 1000) (Some 5) VUndefined) testTime
      (plain test_state)
    = Ok (true, o')
    ∧ WithPrototype.read o' "key8" = MItem it
    ∧ expires it = ExpAt (testTime + 1000).
Proof.
  destruct (set_expireIn_absolute "key8" (VStr "V8")
    (SetOpts.Make (Some 1000) (Some 5) VUndefined) testTime
    (plain test_state))
    as (it & o' & Hset & Hread & Hin & _).
  - reflexivity.
  - exists it, o'. split; [exact Hset|]. split; [exact Hread|].
    apply Hin; [reflexivity|lia|..]; unfold safe_integer, testTime; lia.
Defined.

(** C4 as stated fails: [expireIn: 0] is given, yet [expireAt] is not
    ignored and [expires] is not [now + 0]. *)
Lemma set_expireIn_zero_counterexample :
  WithPrototype.set "k" (VStr "v") (SetOpts.Make (Some 0) (Some 500) VUndefined)
    100 (bare ∅)
  = Ok (true, bare {["k" := Item "k" (VStr "v") None (ExpAt 500) 100]})
  ∧ ExpAt 500 ≠ ExpAt (100 + 0).
Proof. split; [vm_compute; reflexivity|discriminate]. Qed.



(** On a store with a prototype, [set("__proto__", v)] reaches the inherited
    setter: the item becomes the prototype of the store and no key is
    added. *)
Example set_proto_key :
  WithPrototype.set "__proto__" (VStr "v") SetOpts.empty 100 (plain ∅)
  = Ok (true,
        {| own := ∅;
           proto := ProtoItem (Item "__proto__" (VStr "v") None ExpFalse 100) |}).
Proof. vm_compute. reflexivity. Qed.

(** X10: a [set] on a stored key leaves [count()] as it is.  A [set] on a
    key that is not stored raises it by one, unless the key is [__proto__]
    and the store has a prototype: the count is then as it was. *)
Theorem set_count k v opts now now' (o : object) :
  tags_accepted (SetOpts.tags opts) = true →
  ∃ (o1 : object) (n : Z),
    WithPrototype.set k v opts now o = Ok (true, o1)
    ∧ MemoryCache.count false now' (own o1) = Ok (n, own o1)
    ∧ (is_Some (own o !! k) → n = Z.of_nat (size (own o)))
    ∧ (own o !! k = None → k ≠ "__proto__" ∨ proto o = ProtoNull →
       n = Z.of_nat (size (own o)) + 1)
    ∧ (own o !! k = None → k = "__proto__" → proto o ≠ ProtoNull →
       n = Z.of_nat (size (own o))).
Proof.
  intros Hok. destruct (new_item_accepted k v opts now Hok) as [tg Hnew].
  unfold WithPrototype.set. rewrite Hnew. eexists _, _.
  split; [reflexivity|]. split; [apply count_false_spec|].
  rewrite size_write. split; [|split].
  - by intros [it0 ->].
  - intros -> Hk. destruct Hk as [Hk | ->].
    + apply String.eqb_neq in Hk. rewrite Hk. simpl. lia.
    + rewrite andb_false_r. lia.
  - intros -> -> Hp. simpl. by destruct (proto o).
Qed.

Lemma set_count_witness :
  ∃ (o1 : object) (n : Z),
    WithPrototype.set "key9" (VStr "V9") (SetOpts.Make None None (VStr "foo"))
      testTime (plain test_state) = Ok (true, o1)
    ∧ MemoryCache.count false testTime (own o1) = Ok (n, own o1)
    ∧ n = 7.
Proof.
  destruct (set_count "key9" (VStr "V9") (SetOpts.Make None None (VStr "foo"))
    testTime testTime (plain test_state) eq_refl)
    as (o1 & n & Hset & Hcount & _ & Hnew & _).
  exists o1, n. split; [exact Hset|]. split; [exact Hcount|].
  rewrite Hnew; [reflexivity|reflexivity|by left].
Defined.

(** ** The words of a string

    What [_paramArray] makes of a string, said without its three steps: the
    white-space-delimited words of the string, or the single empty token
    when the string has no word. *)

Lemma tokens_scan s : tokens s = cons_word (scan s).1 (scan s).2.
Proof. unfold tokens. by destruct (scan s). Qed.

Lemma scan_cons c s :
  scan (String c s)
  = if is_space c then (EmptyString, tokens s)
    else (String c (scan s).1, (scan s).2).
Proof. simpl. rewrite tokens_scan. by destruct (scan s). Qed.

Lemma scan_replace_spaces s :
  scan (replace_spaces false s) = scan s
  ∧ tokens (replace_spaces true s) = tokens s.
Proof.
  induction s as [|c s [IHf IHt]]; [done|].
  cbn [replace_spaces]. destruct (is_space c) eqn:Hc.
  - split.
    + rewrite !scan_cons, Hc. simpl. by rewrite IHt.
    + rewrite IHt, (tokens_scan (String c s)), scan_cons, Hc. done.
  - assert (scan (String c (replace_spaces false s)) = scan (String c s))
      as Heq by (by rewrite !scan_cons, Hc, IHf).
    split; [done|]. by rewrite !tokens_scan, Heq.
Qed.

Lemma tokens_trimStart s : tokens (trimStart s) = tokens s.
Proof.
  induction s as [|c s IH]; [done|]. cbn [trimStart].
  destruct (is_space c) eqn:Hc; [|done].
  by rewrite IH, (tokens_scan (String c s)), scan_cons, Hc.
Qed.

Lemma scan_trimEnd s : scan (trimEnd s) = scan s.
Proof.
  induction s as [|c s IH]; [done|]. cbn [trimEnd].
  destruct (trimEnd s) as [|c' r] eqn:Hr.
  - rewrite scan_cons, tokens_scan, <- IH. simpl.
    by destruct (is_space c) eqn:Hc; [|rewrite scan_cons, Hc].
  - by rewrite (scan_cons c (String c' r)), (scan_cons c s), !tokens_scan, IH.
Qed.

Lemma space_only_is_space c :
  space_only c = true → is_space c = is_blank c.
Proof.
  unfold space_only. destruct (is_blank c) eqn:Hb.
  - intros _. by apply is_blank_is_space.
  - rewrite orb_false_r. by intros ->%negb_true_iff.
Qed.

Lemma cons_word_filter w (ws : list string) :
  cons_word w (filter (λ t, nonempty t = true) ws)
  = filter (λ t, nonempty t = true) (w :: ws).
Proof. by destruct w. Qed.

Lemma scan_split_tokens s :
  all_chars space_only s = true →
  scan s = ((split_tokens s).1,
            filter (λ t, nonempty t = true) (split_tokens s).2).
Proof.
  induction s as [|c s IH]; [done|]. simpl.
  intros [Hc Hs]%andb_true_iff. rewrite (IH Hs).
  rewrite (space_only_is_space _ Hc). fold (is_blank c).
  destruct (split_tokens s) as [tok rest]. simpl.
  destruct (is_blank c); [|done]. by rewrite cons_word_filter.
Qed.

Lemma scan_blank s : all_chars is_space s = true → scan s = (EmptyString, []).
Proof.
  induction s as [|c s IH]; [done|]. simpl.
  intros [Hc Hs]%andb_true_iff. by rewrite (IH Hs), Hc.
Qed.

Lemma tokens_not_blank s : all_chars is_space s = false → tokens s ≠ [].
Proof.
  induction s as [|c s IH]; [done|]. simpl. rewrite tokens_scan, scan_cons.
  destruct (is_space c) eqn:Hc; simpl; [|done].
  intros Hs. by apply IH.
Qed.

Lemma filter_nonempty_all (ws : list string) :
  Forall (λ t, nonempty t = true) ws →
  filter (λ t, nonempty t = true) ws = ws.
Proof.
  induction 1 as [|w ws Hw _ IH]; [done|].
  by rewrite filter_cons_True, IH.
Qed.

(** [_paramArray] on a string: its words, or the single empty token when it
    has none. *)
Lemma _paramArray_words s :
  MemoryCache._paramArray (VStr s)
  = Ok (if all_chars is_space s then [EmptyString] else tokens s).
Proof.
  unfold MemoryCache._paramArray, split_space.
  set (u := trim (replace_spaces false s)).
  assert (all_chars space_only u = true) as Hso.
  { apply trimEnd_all_chars, trimStart_all_chars,
      replace_spaces_space_only. }
  assert (no_double u = true) as Hnd.
  { apply trimEnd_no_double, trimStart_no_double, replace_spaces_no_double. }
  assert (no_trailing u = true) as Htr by apply trimEnd_no_trailing.
  assert (starts_blank u = false) as Hsb
    by apply trimEnd_starts, trimStart_starts.
  assert (u = EmptyString ↔ all_chars is_space s = true) as Hu.
  { unfold u, trim.
    by rewrite trimEnd_empty, trimStart_blank, replace_spaces_blank. }
  assert (tokens u = tokens s) as Htok.
  { unfold u, trim.
    rewrite (tokens_scan (trimEnd _)), scan_trimEnd, <- tokens_scan.
    rewrite tokens_trimStart, !tokens_scan.
    by rewrite (proj1 (scan_replace_spaces s)). }
  destruct (split_tokens_nonempty u Hnd Htr) as [Hne Hfirst].
  rewrite tokens_scan, (scan_split_tokens u Hso) in Htok.
  destruct (split_tokens u) as [tok rest] eqn:Hsplit. simpl in *.
  rewrite (filter_nonempty_all _ Hne) in Htok.
  destruct (all_chars is_space s) eqn:Hblank.
  - rewrite (proj2 Hu eq_refl) in Hsplit. by injection Hsplit as <- <-.
  - destruct tok as [|c tok]; [|by rewrite <- Htok].
    destruct (Hfirst eq_refl) as [Hempty | Hstart].
    + apply Hu in Hempty. discriminate Hempty.
    + by rewrite Hstart in Hsb.
Qed.

(** A string without white space is its only word. *)
Lemma tokens_no_space str :
  no_space str = true → nonempty str = true → tokens str = [str].
Proof.
  intros Hns Hne.
  assert (scan str = (str, [])) as Hscan.
  { clear Hne. induction str as [|c str IH]; [done|]. simpl in *.
    apply andb_true_iff in Hns as [Hc Hs]. apply negb_true_iff in Hc.
    by rewrite (IH Hs), Hc. }
  rewrite tokens_scan, Hscan. by destruct str.
Qed.

Lemma all_chars_no_space str :
  no_space str = true → all_chars is_space str = negb (nonempty str).
Proof.
  destruct str as [|c str]; [done|]. simpl.
  intros [Hc _]%andb_true_iff. apply negb_true_iff in Hc. by rewrite Hc.
Qed.

(** ** [get] *)

(** On a store without a prototype [WithPrototype.get] is
    [MemoryCache.get]. *)
Lemma get_bare key opts now (s : store) :
  WithPrototype.get key opts now (bare s)
  = match MemoryCache.get key opts now s with
    | Ok (v, s') => Ok (v, bare s')
    | Throw e => Throw e
    end.
Proof.
  unfold WithPrototype.get, WithPrototype.read. simpl.
  destruct (s !! key) as [it|] eqn:Hk.
  - rewrite (get_stored _ _ _ _ _ Hk).
    destruct (GetOpts.force opts); [done|].
    destruct (GetOpts.maxAge opts) as [m|]; [|done].
    destruct (negb (m =? 0)); [|done].
    by destruct (m >? now - created it).
  - by rewrite get_absent.
Qed.

(** X5: under [force], [get] returns the payload of every stored key,
    whatever [expires], [created] and [maxAge] are; on a key that is
    neither stored nor found on the prototype chain of the store it returns
    the default, or null when no default is given, and never
    [undefined]. *)
Theorem get_force key opts now (o : object) :
  GetOpts.force opts = true →
  (∀ it, own o !! key = Some it →
         WithPrototype.get key opts now o = Ok (payload it, o))
  ∧ (own o !! key = None → not_inherited o key →
     WithPrototype.get key opts now o
     = Ok (MemoryCache._defaultOrNull opts, o)
     ∧ MemoryCache._defaultOrNull opts ≠ VUndefined
     ∧ (GetOpts.default opts = VUndefined →
        MemoryCache._defaultOrNull opts = VNull)).
Proof.
  intros Hforce. unfold WithPrototype.get. split.
  - intros it Hk. by rewrite (read_own _ _ _ Hk), Hforce.
  - intros Hk Hinh. rewrite (read_absent _ _ Hk Hinh).
    split; [done|]. unfold MemoryCache._defaultOrNull.
    split; [by destruct (GetOpts.default opts)|by intros ->].
Qed.

Lemma get_force_witness :
  WithPrototype.get "key3" (GetOpts.Make VUndefined (Some 1) true)
    testTime (plain test_state) = Ok (VStr "v3", plain test_state)
  ∧ WithPrototype.get "key7" (GetOpts.Make VUndefined (Some 1) true)
      testTime (plain test_state) = Ok (VNull, plain test_state).
Proof.
  split.
  - apply (proj1 (get_force "key3" (GetOpts.Make VUndefined (Some 1) true)
      testTime (plain test_state) eq_refl)
      (Item "key3" (VStr "v3") (Some ["bar"]) (ExpAt (testTime - 3600))
         (testTime - 7200))).
    vm_compute. reflexivity.
  - apply (proj2 (get_force "key7" (GetOpts.Make VUndefined (Some 1) true)
      testTime (plain test_state) eq_refl)).
    + vm_compute. reflexivity.
    + vm_compute. reflexivity.
Defined.

(** [getMeta] finds the item of a stored key, and [null] for a key that is
    neither stored nor found on the prototype chain. *)
Lemma getMeta_own key (o : object) it :
  own o !! key = Some it → WithPrototype.getMeta key o = MItem it.
Proof. intros Hk. unfold WithPrototype.getMeta. by rewrite (read_own _ _ _ Hk). Qed.

Lemma getMeta_absent key (o : object) :
  own o !! key = None → not_inherited o key →
  WithPrototype.getMeta key o = MValue VNull.
Proof.
  intros Hk Hinh. unfold WithPrototype.getMeta.
  by rewrite (read_absent _ _ Hk Hinh).
Qed.

(** On a store with a prototype, [get] under [force] of a name that
    [Object.prototype] holds returns [undefined]. *)
Example get_force_inherited :
  WithPrototype.get "constructor" (GetOpts.Make VUndefined None true) 100
    (plain ∅) = Ok (VUndefined, plain ∅).
Proof. vm_compute. reflexivity. Qed.

(** ** [delete] *)

Lemma delete_loop_spec ks : ∀ n (o : object),
  Forall (not_inherited o) ks →
  ∃ o' : object,
    WithPrototype.delete_loop ks n o
    = (n + Z.of_nat (size (own o)) - Z.of_nat (size (own o')), o')
    ∧ proto o' = proto o
    ∧ ∀ k, own o' !! k = if decide (k ∈ ks) then None else own o !! k.
Proof.
  induction ks as [|k0 ks IH]; intros n o Hks.
  - exists o. split; [simpl; f_equal; lia|]. split; [done|].
    intros k. by rewrite decide_False by apply not_elem_of_nil.
  - apply Forall_cons in Hks as [Hk0 Hks]. cbn [WithPrototype.delete_loop].
    destruct (own o !! k0) as [it0|] eqn:Hown.
    + rewrite (read_own _ _ _ Hown). simpl.
      destruct (IH (n + 1) (WithPrototype.remove k0 o) Hks)
        as (o' & Hrun & Hproto & Ho').
      exists o'. split; [|split; [done|]].
      * rewrite Hrun. f_equal. simpl.
        assert (size (own o) ≠ 0%nat) by (apply map_size_ne_0_lookup; eauto).
        rewrite map_size_delete_Some by eauto. lia.
      * intros k. rewrite Ho'. simpl. destruct (decide (k = k0)) as [->|Hne].
        -- rewrite (decide_True (P := k0 ∈ k0 :: ks)) by (by left).
           rewrite lookup_delete_eq. by case_decide.
        -- rewrite lookup_delete_ne by done.
           destruct (decide (k ∈ ks)).
           ++ by rewrite (decide_True (P := k ∈ k0 :: ks)) by (by right).
           ++ by rewrite (decide_False (P := k ∈ k0 :: ks))
                by (intros [?|?]%elem_of_cons; done).
    + rewrite (read_absent _ _ Hown Hk0). simpl.
      destruct (IH n o Hks) as (o' & Hrun & Hproto & Ho').
      exists o'. split; [done|]. split; [done|].
      intros k. rewrite Ho'. destruct (decide (k = k0)) as [->|Hne].
      * rewrite (decide_True (P := k0 ∈ k0 :: ks)) by (by left).
        rewrite Hown. by case_decide.
      * destruct (decide (k ∈ ks)).
        -- by rewrite (decide_True (P := k ∈ k0 :: ks)) by (by right).
        -- by rewrite (decide_False (P := k ∈ k0 :: ks))
             by (intros [?|?]%elem_of_cons; done).
Qed.

Lemma delete_removes input ks now (o : object) :
  MemoryCache._paramArray input = Ok ks →
  Forall (not_inherited o) ks →
  removes_keys (WithPrototype.delete input now o) ks o.
Proof.
  intros Hin Hks. unfold WithPrototype.delete, removes_keys. rewrite Hin.
  destruct (delete_loop_spec ks 0 o Hks) as (o' & Hrun & Hproto & Ho').
  eexists _, o'. split; [by rewrite Hrun|]. split; [done|].
  split; [|split; [|lia]].
  - intros k Hk. by rewrite Ho', decide_True.
  - intros k Hk. by rewrite Ho', decide_False.
Qed.

(** C9, as amended: given a sequence of keys none of which is found on the
    prototype chain of the store, [delete] removes each of them that is
    present, skips the absent ones without an error and returns the number
    of keys it removed; given a string, it does so for the
    white-space-delimited words of the string (for the empty key when the
    string has no word), so for the string itself when it has no white
    space; any other input throws. *)
Theorem delete_counts_removed_keys input now (o : object) :
  match input with
  | VArr ks =>
      Forall (not_inherited o) ks →
      removes_keys (WithPrototype.delete input now o) ks o
  | VStr str =>
      (Forall (not_inherited o)
         (if all_chars is_space str then [EmptyString] else tokens str) →
       removes_keys (WithPrototype.delete input now o)
         (if all_chars is_space str then [EmptyString] else tokens str) o)
      ∧ (no_space str = true → not_inherited o str →
         removes_keys (WithPrototype.delete input now o) [str] o)
  | _ =>
      WithPrototype.delete input now o
      = Throw "[memory-cache] invalid input, must be string or an array"
  end.
Proof.
  destruct input as [| |b|n|str|ks]; try done.
  - split.
    + apply delete_removes, _paramArray_words.
    + intros Hstr Hinh. apply delete_removes.
      * by apply _paramArray_no_space.
      * by constructor.
  - by apply delete_removes.
Qed.

Lemma delete_counts_removed_keys_witness :
  removes_keys
    (WithPrototype.delete (VArr ["key1"; "nokey"; "key3"]) testTime
       (plain test_state))
    ["key1"; "nokey"; "key3"] (plain test_state)
  ∧ removes_keys
      (WithPrototype.delete (VStr " key1  key2 ") testTime (plain test_state))
      ["key1"; "key2"] (plain test_state).
Proof.
  split.
  - apply (delete_counts_removed_keys (VArr ["key1"; "nokey"; "key3"])
             testTime (plain test_state)).
    repeat constructor.
  - apply (proj1 (delete_counts_removed_keys (VStr " key1  key2 ")
                    testTime (plain test_state))).
    repeat constructor.
Defined.

(** C9 as stated fails: the string ["a b"] is one key of the store, and
    [delete("a b")] removes nothing and returns 0. *)
Lemma delete_spaced_key_counterexample :
  is_Some (own (bare spaced_state) !! "a b")
  ∧ WithPrototype.delete (VStr "a b") 100 (bare spaced_state)
    = Ok (0, bare spaced_state).
Proof. split; [by eexists|]. vm_compute. reflexivity. Qed.

(** On a store with a prototype, [delete] finds the names that
    [Object.prototype] holds: it counts one and removes nothing. *)
Example delete_inherited_name :
  WithPrototype.delete (VStr "toString") 100 (plain test_state)
  = Ok (1, plain test_state).
Proof. vm_compute. reflexivity. Qed.

(** X11: [delete] is idempotent on keys that are not found on the prototype
    chain of the store: after a [delete], the same [delete] again removes
    nothing and returns 0, and every [get] of one of its keys, with any
    options, answers the default (or null). *)
Theorem delete_twice input now now' (o : object) :
  match MemoryCache._paramArray input with
  | Ok ks =>
      Forall (not_inherited o) ks →
      ∃ n (o' : object),
        WithPrototype.delete input now o = Ok (n, o')
        ∧ WithPrototype.delete input now' o' = Ok (0, o')
        ∧ ∀ k opts t, k ∈ ks →
            WithPrototype.get k opts t o'
            = Ok (MemoryCache._defaultOrNull opts, o')
  | Throw e => WithPrototype.delete input now o = Throw e
  end.
Proof.
  destruct (MemoryCache._paramArray input) as [ks|e] eqn:Hin.
  - intros Hks.
    destruct (delete_removes input ks now o Hin Hks)
      as (n & o' & Hrun & Hproto & Hgone & _).
    assert (Forall (not_inherited o') ks) as Hks'.
    { unfold not_inherited in *. by rewrite Hproto. }
    exists n, o'. split; [done|]. split.
    + destruct (delete_removes input ks now' o' Hin Hks')
        as (n2 & o2 & Hrun2 & Hproto2 & Hgone2 & Hkept2 & Hn2).
      assert (o2 = o') as ->.
      { destruct o2 as [s2 p2], o' as [s' p']. simpl in *. f_equal; [|done].
        apply map_eq. intros k. destruct (decide (k ∈ ks)).
        - by rewrite Hgone, Hgone2.
        - by apply Hkept2. }
      rewrite Hrun2. do 2 f_equal. lia.
    + intros k opts t Hk. unfold WithPrototype.get.
      rewrite read_absent; [done|by apply Hgone|].
      by apply (proj1 (Forall_forall _ _) Hks').
  - unfold WithPrototype.delete. by rewrite Hin.
Qed.

Lemma delete_twice_witness :
  ∃ n (o' : object),
    WithPrototype.delete (VStr "key1 key2") testTime (plain test_state)
    = Ok (n, o')
    ∧ WithPrototype.delete (VStr "key1 key2") testTime o' = Ok (0, o').
Proof.
  destruct (delete_twice (VStr "key1 key2") testTime testTime
              (plain test_state)) as (n & o' & Hrun & Hagain & _).
  - repeat constructor.
  - by exists n, o'.
Defined.

(** ** The two embeddings on a store without a prototype *)

Lemma write_bare k it (s : store) :
  WithPrototype.write k it (bare s) = bare (<[k := it]> s).
Proof.
  unfold WithPrototype.write. simpl.
  destruct (s !! k); [done|]. by rewrite andb_false_r.
Qed.

(** [WithPrototype.set] is [MemoryCache.set] as long as the sum
    [now + expireIn] is a safe integer. *)
Lemma set_bare k v opts now (s : store) :
  (∀ d, SetOpts.expireIn opts = Some d → safe_integer (now + d)) →
  WithPrototype.set k v opts now (bare s)
  = match MemoryCache.set k v opts now s with
    | Ok (b, s') => Ok (b, bare s')
    | Throw e => Throw e
    end.
Proof.
  intros Hsafe.
  assert (match SetOpts.expireIn opts with
          | Some d =>
              if negb (d =? 0) then ExpAt (number_add now d)
              else MemoryCache.expireAt_or_false opts
          | None => MemoryCache.expireAt_or_false opts
          end
          = match SetOpts.expireIn opts with
            | Some d =>
                if negb (d =? 0) then ExpAt (now + d)
                else MemoryCache.expireAt_or_false opts
            | None => MemoryCache.expireAt_or_false opts
            end) as Hexp.
  { destruct (SetOpts.expireIn opts) as [d|]; [|done].
    by rewrite number_add_safe by (by apply Hsafe). }
  unfold WithPrototype.set, WithPrototype.new_item, MemoryCache.set.
  rewrite Hexp. run_method.
  destruct (SetOpts.tags opts) as [| |b|n|str|arr]; simpl;
    rewrite ?write_bare; try done.
  - destruct b; simpl; by rewrite ?write_bare.
  - destruct (negb (n =? 0)); simpl; by rewrite ?write_bare.
  - destruct (negb (String.eqb str "")); simpl; by rewrite ?write_bare.
Qed.

Section BareLoop.

Variable body : string -> Z -> M Z.
Variable now : Z.

Hypothesis body_spec : ∀ k n (s : store),
  body k n now s
  = Ok (match s !! k with
        | Some _ => (n + 1, delete k s)
        | None => (n, s)
        end).

Lemma for_of_delete_loop ks : ∀ n (s : store),
  ∃ s' : store,
    for_of ks body n now s = Ok ((WithPrototype.delete_loop ks n (bare s)).1, s')
    ∧ (WithPrototype.delete_loop ks n (bare s)).2 = bare s'.
Proof.
  induction ks as [|k0 ks IH]; intros n s; [by exists s|].
  cbn [for_of WithPrototype.delete_loop].
  pose proof (body_spec k0 n s) as Hb.
  unfold WithPrototype.read. simpl.
  destruct (s !! k0) as [it0|] eqn:Hk0; rewrite (bind_Ok _ _ _ _ _ _ Hb);
    simpl; apply IH.
Qed.

End BareLoop.

Lemma delete_bare input now (s : store) :
  WithPrototype.delete input now (bare s)
  = match MemoryCache.delete input now s with
    | Ok (n, s') => Ok (n, bare s')
    | Throw e => Throw e
    end.
Proof.
  unfold WithPrototype.delete, MemoryCache.delete.
  unfold bind at 1, lift at 1.
  destruct (MemoryCache._paramArray input) as [ks|e]; [|done].
  match goal with
  | |- context [for_of ks ?body 0 now s] =>
      destruct (for_of_delete_loop body now) with (ks := ks) (n := 0) (s := s)
        as (s' & Hrun & Hloop)
  end.
  { intros k n s0. run_method. by destruct (s0 !! k). }
  rewrite Hrun, <- Hloop. by destruct (WithPrototype.delete_loop ks 0 (bare s)).
Qed.

(** * What removes an item *)




